(** * linux_queue: a byte ring buffer guarded by a mutex and a condition variable

    Shallow embedding of [queue.c] / [queue.h] and the properties of its
    operations.

    Modelling choices.
    - [uint32_t] values are integers of [Z] in the range [0 .. 2^32 - 1];
      every arithmetic step of the source that can leave the range is
      written with [wrap32].  A [uint32_t] count returned through the [int]
      return type goes through [to_int] (two's complement, as gcc and clang
      do on Linux).
    - A pointer is an [option]: [None] is [NULL], [Some x] points to a live
      object whose current contents is [x].  The heap block behind
      [queue_t.data] is the list of its bytes.
    - Operations the C standard leaves undefined (division by zero, access
      through [NULL] or outside a block) end the computation with [UB].
    - The mutex only brackets the critical sections and is not represented.
      What the other threads do while the caller sleeps inside
      [pthread_cond_wait] / [pthread_cond_timedwait] is given by a list of
      wake-ups: each one carries the state of the queue the caller finds
      when the wait returns (and, for the timed wait, the return code).
      [queue_get_data] and [queue_get_data_with_timeout] are the calls of
      a thread that is alone with the queue between the unlocked read of
      [current_size] that ends the wait loop and the lock taken for the
      drain; [queue_get_data_shared] and
      [queue_get_data_with_timeout_shared] let other threads change the
      queue in that window.
    - [queue_destroy] releases the block, which leaves [data] dangling;
      what it leaves behind is described by a record of its own
      ([torn_down]) and not by a [queue_t]. *)

From Stdlib Require Import ZArith Lia.
From Stdlib.Init Require Import Byte.
From stdpp Require Import base option list.

Local Open Scope Z_scope.

(** ** C integers *)

Definition UINT32_MAX : Z := 4294967295.
Definition INT_MAX : Z := 2147483647.

Definition wrap32 (z : Z) : Z := z mod 4294967296.

Definition uint32 (z : Z) : Prop := 0 <= z <= UINT32_MAX.

(** Conversion of a [uint32_t] to [int] on return. *)
Definition to_int (z : Z) : Z := if z <=? INT_MAX then z else z - 4294967296.

(** [errno.h] on Linux. *)
Definition EINTR : Z := 4.
Definition ETIMEDOUT : Z := 110.

(** ** Undefined behaviour as an error monad *)

Inductive undefined : Set := DivByZero | NullDeref | OutOfBounds.

Inductive result (A : Type) : Type :=
| Ok (a : A)
| UB (u : undefined).
Arguments Ok {A} a.
Arguments UB {A} u.

Definition bind {A B : Type} (r : result A) (k : A -> result B) : result B :=
  match r with
  | Ok a => k a
  | UB u => UB u
  end.

Notation "'let*' x ':=' r 'in' k" := (bind r (fun x => k))
  (at level 10, x name, r at level 100, k at level 200).

(** [a % b] on [uint32_t]. *)
Definition umod (a b : Z) : result Z :=
  if b =? 0 then UB DivByZero else Ok (a mod b).

(** [*p]: the block a pointer refers to. *)
Definition deref {A : Type} (p : option A) : result A :=
  match p with
  | Some a => Ok a
  | None => UB NullDeref
  end.

(** [blk[i]] as an rvalue. *)
Definition load (blk : list byte) (i : Z) : result byte :=
  match blk !! Z.to_nat i with
  | Some b => Ok b
  | None => UB OutOfBounds
  end.

(** [blk[i] = b]. *)
Definition store (blk : list byte) (i : Z) (b : byte) : result (list byte) :=
  if i <? Z.of_nat (length blk)
  then Ok (<[Z.to_nat i := b]> blk)
  else UB OutOfBounds.

(** A call that may sleep: it returns, or it is still blocked when the
    wake-ups that were provided are used up. *)
Inductive blocking (A : Type) : Type :=
| Returns (r : result A)
| Blocked.
Arguments Returns {A} r.
Arguments Blocked {A}.

(** ** The queue structure ([queue.h]) *)

Record queue_t : Type := mk_queue {
  data : option (list byte);   (* uint8_t *data *)
  head : Z;                    (* uint32_t head *)
  tail : Z;                    (* uint32_t tail *)
  total_size : Z;              (* uint32_t total_size *)
  current_size : Z             (* uint32_t current_size *)
}.

Definition set_data (q : queue_t) (p : option (list byte)) : queue_t :=
  mk_queue p (head q) (tail q) (total_size q) (current_size q).
Definition set_head (q : queue_t) (h : Z) : queue_t :=
  mk_queue (data q) h (tail q) (total_size q) (current_size q).
Definition set_tail (q : queue_t) (t : Z) : queue_t :=
  mk_queue (data q) (head q) t (total_size q) (current_size q).
Definition set_total_size (q : queue_t) (n : Z) : queue_t :=
  mk_queue (data q) (head q) (tail q) n (current_size q).
Definition set_current_size (q : queue_t) (n : Z) : queue_t :=
  mk_queue (data q) (head q) (tail q) (total_size q) n.

(** ** The operations ([queue.c]) *)

Definition sizeof_uint8_t : Z := 1.

(** [queue_init].  [malloc] answers the allocation request: [None] for a
    failed allocation, otherwise the fresh block with whatever bytes it
    holds. *)
Definition queue_init (malloc : Z -> option (list byte))
    (queue_name : option queue_t) (queue_size : Z) : bool * option queue_t :=
  match queue_name with
  | None => (false, None)
  | Some q =>
      if queue_size =? 0 then (false, Some q)
      else
        let len := wrap32 (queue_size * sizeof_uint8_t + 1) in
        let q := set_data q (malloc len) in
        match data q with
        | None => (false, Some q)
        | Some _ =>
            let q := set_tail q 0 in
            let q := set_head q (tail q) in
            let q := set_total_size q len in
            let q := set_current_size q 0 in
            (true, Some q)
        end
  end.

(** [queue_clear]. *)
Definition queue_clear (queue_name : option queue_t) : bool * option queue_t :=
  match queue_name with
  | None => (false, None)
  | Some q =>
      let q := set_tail q 0 in
      let q := set_head q (tail q) in
      let q := set_current_size q 0 in
      (true, Some q)
  end.

(** [queue_get_current_size]. *)
Definition queue_get_current_size (queue_name : queue_t) : Z :=
  current_size queue_name.

(** [queue_is_empty]. *)
Definition queue_is_empty (queue_name : queue_t) : bool :=
  if current_size queue_name =? 0 then true else false.

(** The [for] loop of [queue_put_data]; [n] is the number of iterations
    left, [data_len - put_num]. *)
Fixpoint put_loop (n : nat) (q : queue_t) (src : list byte) (put_num : Z)
  : result (Z * queue_t) :=
  match n with
  | O => Ok (put_num, q)
  | S n' =>
      let* next := umod (wrap32 (tail q + 1)) (total_size q) in
      if next =? head q then Ok (put_num, q)
      else
        let* b := load src put_num in
        let* blk := deref (data q) in
        let* blk := store blk (tail q) b in
        let q := set_data q (Some blk) in
        let* next := umod (wrap32 (tail q + 1)) (total_size q) in
        let q := set_tail q next in
        let q := set_current_size q (wrap32 (current_size q + 1)) in
        put_loop n' q src (wrap32 (put_num + 1))
  end.

(** [queue_put_data]: the [int] returned and the queue afterwards. *)
Definition queue_put_data (queue_name : option queue_t)
    (src : option (list byte)) (data_len : Z) : result (Z * option queue_t) :=
  match queue_name, src with
  | Some q, Some bytes =>
      if data_len =? 0 then Ok (-1, queue_name)
      else
        let* r := put_loop (Z.to_nat data_len) q bytes 0 in
        Ok (to_int (fst r), Some (snd r))
  | _, _ => Ok (-1, queue_name)
  end.

(** The [for] loop shared, word for word, by [queue_get_data] and
    [queue_get_data_with_timeout]; [n] is [data_len - get_num] and [dst] is
    the caller's buffer. *)
Fixpoint get_loop (n : nat) (q : queue_t) (dst : list byte) (get_num : Z)
  : result (Z * queue_t * list byte) :=
  match n with
  | O => Ok (get_num, q, dst)
  | S n' =>
      if head q =? tail q then Ok (get_num, q, dst)
      else
        let* blk := deref (data q) in
        let* b := load blk (head q) in
        let* dst := store dst get_num b in
        let* next := umod (wrap32 (head q + 1)) (total_size q) in
        let q := set_head q next in
        let q := set_current_size q (wrap32 (current_size q - 1)) in
        get_loop n' q dst (wrap32 (get_num + 1))
  end.

(** What a dequeue call hands back: the [int] returned, the queue, the
    caller's buffer and the wake-ups it did not consume. *)
Record dequeued (W : Type) : Type := mk_dequeued {
  ret : Z;
  queue_after : option queue_t;
  data_after : option (list byte);
  wakes_left : list W
}.
Arguments mk_dequeued {W} _ _ _ _.
Arguments ret {W} _.
Arguments queue_after {W} _.
Arguments data_after {W} _.
Arguments wakes_left {W} _.

Definition drain {W : Type} (q : queue_t) (dst : list byte) (data_len : Z)
    (wakes : list W) : result (dequeued W) :=
  let* r := get_loop (Z.to_nat data_len) q dst 0 in
  Ok (mk_dequeued (to_int (fst (fst r))) (Some (snd (fst r))) (Some (snd r)) wakes).

(** The [while] loop of [queue_get_data]: sleep on the condition variable
    until the unlocked read of [current_size] is non-zero. *)
Fixpoint wait_loop (wakes : list queue_t) (q : queue_t)
  : option (queue_t * list queue_t) :=
  if queue_get_current_size q =? 0 then
    match wakes with
    | [] => None
    | q' :: wakes' => wait_loop wakes' q'
    end
  else Some (q, wakes).

(** [queue_get_data]. *)
Definition queue_get_data (wakes : list queue_t) (queue_name : option queue_t)
    (dst : option (list byte)) (data_len : Z) : blocking (dequeued queue_t) :=
  match queue_name, dst with
  | Some q, Some buf =>
      if data_len =? 0 then Returns (Ok (mk_dequeued (-1) queue_name dst wakes))
      else
        match wait_loop wakes q with
        | None => Blocked
        | Some (q, wakes) => Returns (drain q buf data_len wakes)
        end
  | _, _ => Returns (Ok (mk_dequeued (-1) queue_name dst wakes))
  end.

(** The [while] loop of [queue_get_data_with_timeout].  A wake-up is the
    return code of [pthread_cond_timedwait] with the queue found then. *)
Inductive timed_wait : Type :=
| Proceed (q : queue_t) (wakes : list (Z * queue_t))
| GiveUp (q : queue_t) (wakes : list (Z * queue_t))
| Sleeping.

Fixpoint timed_wait_loop (wakes : list (Z * queue_t)) (q : queue_t) : timed_wait :=
  if queue_get_current_size q =? 0 then
    match wakes with
    | [] => Sleeping
    | (rc, q') :: wakes' =>
        if EINTR =? rc then timed_wait_loop wakes' q'
        else GiveUp q' wakes'
    end
  else Proceed q wakes.

(** [queue_get_data_with_timeout].  The deadline [end_time] is computed once
    before the loop and only read afterwards; its expiry shows as the return
    code [ETIMEDOUT] of a wake-up. *)
Definition queue_get_data_with_timeout (wakes : list (Z * queue_t))
    (queue_name : option queue_t) (dst : option (list byte))
    (data_len : Z) (timeout : Z) : blocking (dequeued (Z * queue_t)) :=
  match queue_name, dst with
  | Some q, Some buf =>
      if data_len =? 0 then Returns (Ok (mk_dequeued (-1) queue_name dst wakes))
      else if 0 <? timeout then
        match timed_wait_loop wakes q with
        | Sleeping => Blocked
        | GiveUp q wakes => Returns (Ok (mk_dequeued (-1) (Some q) dst wakes))
        | Proceed q wakes => Returns (drain q buf data_len wakes)
        end
      else Returns (drain q buf data_len wakes)
  | _, _ => Returns (Ok (mk_dequeued (-1) queue_name dst wakes))
  end.

(** ** Invariants and the abstract contents *)

(** The occupancy invariant of the data model: both indices inside the
    block and the cached count equal to the distance from [head] to
    [tail]. *)
Definition occupancy_inv (q : queue_t) : Prop :=
  0 <= head q < total_size q /\
  0 <= tail q < total_size q /\
  current_size q = (tail q - head q) mod total_size q.

(** [data] points to a block of exactly [total_size] bytes. *)
Definition storage_ok (q : queue_t) : Prop :=
  exists blk, data q = Some blk /\
    Z.of_nat (length blk) = total_size q /\ total_size q <= UINT32_MAX.

Definition queue_ok (q : queue_t) : Prop := occupancy_inv q /\ storage_ok q.

(** [n] bytes read circularly from index [h]. *)
Fixpoint ring_read (blk : list byte) (h : Z) (n : nat) : list byte :=
  match n with
  | O => []
  | S n' =>
      match blk !! Z.to_nat h with
      | Some b => b :: ring_read blk ((h + 1) mod Z.of_nat (length blk)) n'
      | None => []
      end
  end.

(** The bytes held by the queue, oldest first. *)
Definition contents (q : queue_t) : list byte :=
  match data q with
  | Some blk => ring_read blk (head q) (Z.to_nat (current_size q))
  | None => []
  end.

(** Requested capacity of a queue: one slot is the spacer. *)
Definition capacity (q : queue_t) : Z := total_size q - 1.

(** A well-behaved allocator: a block of the requested length, or [NULL]. *)
Definition malloc_ok (malloc : Z -> option (list byte)) : Prop :=
  forall n blk, 0 <= n -> malloc n = Some blk -> Z.of_nat (length blk) = n.

(** One iteration of the loop of [queue_put_data] on a queue that is not
    full. *)
Definition put_byte (q : queue_t) (blk : list byte) (b : byte) : queue_t :=
  mk_queue (Some (<[Z.to_nat (tail q) := b]> blk)) (head q)
    ((tail q + 1) mod total_size q) (total_size q) (current_size q + 1).

(** One iteration of the drain loop on a queue with [head <> tail]. *)
Definition get_byte (q : queue_t) : queue_t :=
  mk_queue (data q) ((head q + 1) mod total_size q) (tail q) (total_size q)
    (current_size q - 1).

(** ** Clients

    Straight-line callers used to state properties of call sequences. *)

Definition sum_Z (l : list Z) : Z := foldr Z.add 0 l.

(** A producer enqueuing the chunks one call after the other; the list of
    the values returned and the queue at the end. *)
Fixpoint put_all (queue_name : option queue_t) (chunks : list (list byte))
  : result (list Z * option queue_t) :=
  match chunks with
  | [] => Ok ([], queue_name)
  | c :: chunks' =>
      let* r := queue_put_data queue_name (Some c) (Z.of_nat (length c)) in
      let* rs := put_all (snd r) chunks' in
      Ok (fst r :: fst rs, snd rs)
  end.

(** A consumer alone with the queue (nobody wakes it up) calling
    [queue_get_data] once per requested length, each time with a fresh
    buffer of that length; the values returned, the buffers laid end to end
    and the queue at the end. *)
Fixpoint get_all (queue_name : option queue_t) (lens : list Z)
  : blocking (list Z * list byte * option queue_t) :=
  match lens with
  | [] => Returns (Ok ([], [], queue_name))
  | n :: lens' =>
      match queue_get_data [] queue_name (Some (replicate (Z.to_nat n) x00)) n with
      | Blocked => Blocked
      | Returns (UB u) => Returns (UB u)
      | Returns (Ok d) =>
          match get_all (queue_after d) lens' with
          | Blocked => Blocked
          | Returns (UB u) => Returns (UB u)
          | Returns (Ok (rs, bytes, q)) =>
              Returns (Ok (ret d :: rs, default [] (data_after d) ++ bytes, q))
          end
      end
  end.

(** An allocator that never fails and hands out zeroed blocks. *)
Definition zero_malloc (n : Z) : option (list byte) :=
  Some (replicate (Z.to_nat n) x00).

(** A [queue_t] before [queue_init]. *)
Definition blank : queue_t := mk_queue None 0 0 0 0.

(** The queue [queue_init] builds for capacity [n] out of a zeroed block. *)
Definition zero_queue (n : Z) : queue_t :=
  mk_queue (Some (replicate (Z.to_nat (n + 1)) x00)) 0 0 (n + 1) 0.

(** [n] bytes to enqueue. *)
Definition zeros (n : Z) : list byte := replicate (Z.to_nat n) x00.

(** ** The deadline of the timed dequeue

    The lines of [queue_get_data_with_timeout] that turn the clock reading
    [start_time] and the timeout in milliseconds into the absolute time
    handed to [pthread_cond_timedwait].  [tv_sec] and [tv_nsec] are 64-bit
    signed integers on Linux; the remainder and the product are computed on
    [uint32_t]. *)

Record timespec : Type := mk_timespec {
  tv_sec : Z;     (* time_t tv_sec *)
  tv_nsec : Z     (* long tv_nsec *)
}.

Definition LONG_MAX : Z := 9223372036854775807.

Definition end_time (start_time : timespec) (timeout : Z) : timespec :=
  let sec := tv_sec start_time + timeout / 1000 in
  let nsec := tv_nsec start_time + wrap32 (timeout mod 1000 * 1000000) in
  if 1000000000 <=? nsec
  then mk_timespec (sec + 1) (nsec - 1000000000)
  else mk_timespec sec nsec.

(** A point in time in nanoseconds. *)
Definition nanoseconds (t : timespec) : Z := tv_sec t * 1000000000 + tv_nsec t.

(** ** Teardown

    [queue_destroy].  [free] releases the block behind [data] and the
    structure keeps the stale pointer, so what is left of the queue is
    described by its four counters; [released] records that [free] was
    called and [cond_destroy_called] that [pthread_cond_destroy] was.
    [mutex_rc] and [cond_rc] are what [pthread_mutex_destroy] and
    [pthread_cond_destroy] return. *)

Record torn_down : Type := mk_torn_down {
  released : bool;
  cond_destroy_called : bool;
  head_left : Z;
  tail_left : Z;
  total_size_left : Z;
  current_size_left : Z
}.

Definition queue_destroy (mutex_rc cond_rc : Z) (queue_name : option queue_t)
  : bool * option torn_down :=
  match queue_name with
  | None => (false, None)
  | Some q =>
      if negb (0 =? mutex_rc)
      then (false, Some (mk_torn_down true false (head q) (tail q)
                           (total_size q) (current_size q)))
      else if negb (0 =? cond_rc)
      then (false, Some (mk_torn_down true true (head q) (tail q)
                           (total_size q) (current_size q)))
      else (true, Some (mk_torn_down true true 0 0 0 0))
  end.

(** ** One thread using the queue

    A caller issuing puts and dequeues that do not wait
    ([queue_get_data_with_timeout] with a zero timeout, each into a fresh
    zeroed buffer of the requested length) in any order, and what each call
    handed back. *)

Inductive op : Type :=
| Put (chunk : list byte)
| Get (n : Z).

Inductive event : Type :=
| Put_returned (r : Z)
| Get_returned (r : Z) (buf : list byte).

Fixpoint run_ops (queue_name : option queue_t) (ops : list op)
  : blocking (list event * option queue_t) :=
  match ops with
  | [] => Returns (Ok ([], queue_name))
  | Put c :: ops' =>
      match queue_put_data queue_name (Some c) (Z.of_nat (length c)) with
      | UB u => Returns (UB u)
      | Ok (r, queue_name') =>
          match run_ops queue_name' ops' with
          | Returns (Ok (evs, q)) => Returns (Ok (Put_returned r :: evs, q))
          | other => other
          end
      end
  | Get n :: ops' =>
      match queue_get_data_with_timeout [] queue_name (Some (zeros n)) n 0 with
      | Blocked => Blocked
      | Returns (UB u) => Returns (UB u)
      | Returns (Ok d) =>
          match run_ops (queue_after d) ops' with
          | Returns (Ok (evs, q)) =>
              Returns (Ok (Get_returned (ret d) (default [] (data_after d)) :: evs, q))
          | other => other
          end
      end
  end.

(** The same calls traced on the list of bytes held, with every count
    passed through [to_int] as the code returns it: the intermediate
    description [run_ops] is compared with; [bounded_fifo] below is the
    list with plain counts. *)
Fixpoint fifo_ops (cap : Z) (held : list byte) (ops : list op)
  : list event * list byte :=
  match ops with
  | [] => ([], held)
  | Put c :: ops' =>
      let m := Z.min (Z.of_nat (length c)) (cap - Z.of_nat (length held)) in
      let rest := fifo_ops cap (held ++ take (Z.to_nat m) c) ops' in
      (Put_returned (to_int m) :: fst rest, snd rest)
  | Get n :: ops' =>
      let m := Z.min n (Z.of_nat (length held)) in
      let rest := fifo_ops cap (drop (Z.to_nat m) held) ops' in
      (Get_returned (to_int m)
         (take (Z.to_nat m) held ++ drop (Z.to_nat m) (zeros n)) :: fst rest,
       snd rest)
  end.

(** A call the interface accepts: a chunk of at least one byte, a request
    for at least one byte, both within [uint32_t]. *)
Definition op_valid (o : op) : Prop :=
  match o with
  | Put c => c <> [] /\ Z.of_nat (length c) <= UINT32_MAX
  | Get n => 1 <= n <= UINT32_MAX
  end.

(** A call whose count comes back unchanged through [int]. *)
Definition op_small (o : op) : Prop :=
  match o with
  | Put c => c <> [] /\ Z.of_nat (length c) <= INT_MAX
  | Get n => 1 <= n <= INT_MAX
  end.

(** The bytes the puts reported as written, in call order. *)
Fixpoint accepted (ops : list op) (evs : list event) : list byte :=
  match ops, evs with
  | Put c :: ops', Put_returned r :: evs' =>
      take (Z.to_nat r) c ++ accepted ops' evs'
  | _ :: ops', _ :: evs' => accepted ops' evs'
  | _, _ => []
  end.

(** The bytes the gets reported as read, in call order. *)
Fixpoint delivered (evs : list event) : list byte :=
  match evs with
  | Get_returned r buf :: evs' => take (Z.to_nat r) buf ++ delivered evs'
  | _ :: evs' => delivered evs'
  | [] => []
  end.

(** ** The dequeues on a queue shared with other threads

    Both dequeues test [current_size] without holding the mutex and take
    the mutex for the drain only afterwards; other consumers, or a
    [queue_clear], may run in between.  [window q] is the queue found
    under the mutex when the test that ended the wait read [q]; for a
    thread alone with the queue it is the identity, which gives back
    [queue_get_data] and [queue_get_data_with_timeout] as defined above.
    The wake-ups carry the queue as each test of the loop reads it. *)

Definition queue_get_data_shared (wakes : list queue_t)
    (window : queue_t -> queue_t) (queue_name : option queue_t)
    (dst : option (list byte)) (data_len : Z) : blocking (dequeued queue_t) :=
  match queue_name, dst with
  | Some q, Some buf =>
      if data_len =? 0 then Returns (Ok (mk_dequeued (-1) queue_name dst wakes))
      else
        match wait_loop wakes q with
        | None => Blocked
        | Some (q, wakes) => Returns (drain (window q) buf data_len wakes)
        end
  | _, _ => Returns (Ok (mk_dequeued (-1) queue_name dst wakes))
  end.

(** With a zero timeout there is no test: the queue passed is the queue
    under the mutex. *)
Definition queue_get_data_with_timeout_shared (wakes : list (Z * queue_t))
    (window : queue_t -> queue_t) (queue_name : option queue_t)
    (dst : option (list byte)) (data_len : Z) (timeout : Z)
  : blocking (dequeued (Z * queue_t)) :=
  match queue_name, dst with
  | Some q, Some buf =>
      if data_len =? 0 then Returns (Ok (mk_dequeued (-1) queue_name dst wakes))
      else if 0 <? timeout then
        match timed_wait_loop wakes q with
        | Sleeping => Blocked
        | GiveUp q wakes => Returns (Ok (mk_dequeued (-1) (Some q) dst wakes))
        | Proceed q wakes => Returns (drain (window q) buf data_len wakes)
        end
      else Returns (drain q buf data_len wakes)
  | _, _ => Returns (Ok (mk_dequeued (-1) queue_name dst wakes))
  end.

(** ** The bounded first-in first-out list

    The queue as a list of at most [cap] bytes: a put appends as much of
    its chunk as the free room takes and reports how many bytes that was,
    between 0 and the length of the chunk; a get removes up to [n] of the
    oldest bytes and reports how many it was, between 0 and [n]. *)
Fixpoint bounded_fifo (cap : Z) (held : list byte) (ops : list op)
  : list event * list byte :=
  match ops with
  | [] => ([], held)
  | Put c :: ops' =>
      let m := Z.min (Z.of_nat (length c)) (cap - Z.of_nat (length held)) in
      let rest := bounded_fifo cap (held ++ take (Z.to_nat m) c) ops' in
      (Put_returned m :: fst rest, snd rest)
  | Get n :: ops' =>
      let m := Z.min n (Z.of_nat (length held)) in
      let rest := bounded_fifo cap (drop (Z.to_nat m) held) ops' in
      (Get_returned m
         (take (Z.to_nat m) held ++ drop (Z.to_nat m) (zeros n)) :: fst rest,
       snd rest)
  end.

(** Well-formedness of a queue given by its fields is decided by
    evaluation. *)
Ltac concrete_queue_ok :=
  split;
  [ unfold occupancy_inv; repeat split; vm_compute; congruence
  | eexists; repeat split; vm_compute; congruence ].

(** ** Arithmetic on indices *)

Lemma wrap32_small z : 0 <= z <= UINT32_MAX -> wrap32 z = z.
Proof. unfold wrap32, UINT32_MAX. intros. apply Z.mod_small. lia. Qed.

Lemma to_int_small z : z <= INT_MAX -> to_int z = z.
Proof. unfold to_int. intros H. destruct (Z.leb_spec z INT_MAX); [done | lia]. Qed.

Lemma to_int_large z : INT_MAX < z -> to_int z = z - 4294967296.
Proof. unfold to_int. intros H. destruct (Z.leb_spec z INT_MAX); [lia | done]. Qed.

Lemma to_int_not_minus_one z : 0 <= z <= UINT32_MAX - 1 -> to_int z <> -1.
Proof.
  unfold to_int, UINT32_MAX, INT_MAX. intros H.
  destruct (Z.leb_spec z 2147483647); lia.
Qed.

Lemma mod_succ_cases t T :
  0 <= t < T -> (t + 1) mod T = if t + 1 <? T then t + 1 else 0.
Proof.
  intros H. destruct (Z.ltb_spec (t + 1) T).
  - apply Z.mod_small. lia.
  - assert (t + 1 = T) as -> by lia. apply Z.mod_same. lia.
Qed.

Lemma mod_sub_cases h t T :
  0 <= h < T -> 0 <= t < T ->
  (t - h) mod T = if h <=? t then t - h else t - h + T.
Proof.
  intros Hh Ht. destruct (Z.leb_spec h t).
  - apply Z.mod_small. lia.
  - symmetry. apply (Z.mod_unique_pos _ _ (-1)); lia.
Qed.

(** What the occupancy invariant says about the cached count. *)
Section Occupancy.

Variable q : queue_t.
Hypothesis Hocc : occupancy_inv q.

Lemma occupancy_range : 0 <= current_size q <= total_size q - 1.
Proof.
  destruct Hocc as (Hh & Ht & ->).
  pose proof (Z.mod_pos_bound (tail q - head q) (total_size q)). lia.
Qed.

(** Empty: the test of the drain loop. *)
Lemma occupancy_zero : current_size q = 0 <-> head q = tail q.
Proof.
  destruct Hocc as (Hh & Ht & ->). rewrite mod_sub_cases by done.
  destruct (Z.leb_spec (head q) (tail q)); lia.
Qed.

(** Full: the test of the enqueue loop. *)
Lemma occupancy_full :
  (tail q + 1) mod total_size q = head q <-> current_size q = total_size q - 1.
Proof.
  destruct Hocc as (Hh & Ht & ->).
  rewrite mod_sub_cases, mod_succ_cases by done.
  destruct (Z.leb_spec (head q) (tail q)),
    (Z.ltb_spec (tail q + 1) (total_size q)); lia.
Qed.

Lemma occupancy_tail : tail q = (head q + current_size q) mod total_size q.
Proof.
  destruct Hocc as (Hh & Ht & ->). rewrite mod_sub_cases by done.
  destruct (Z.leb_spec (head q) (tail q)).
  - rewrite Z.mod_small; lia.
  - apply (Z.mod_unique_pos _ _ 1); lia.
Qed.

End Occupancy.

(** ** Circular reads *)

Lemma ring_read_length blk n : forall h,
  0 <= h < Z.of_nat (length blk) -> length (ring_read blk h n) = n.
Proof.
  induction n as [|n IH]; intros h Hh; simpl; [done|].
  destruct (lookup_lt_is_Some_2 blk (Z.to_nat h)) as [b ->]; [lia|].
  simpl. f_equal. apply IH. apply Z.mod_pos_bound. lia.
Qed.

Lemma ring_read_app blk n m : forall h,
  0 <= h < Z.of_nat (length blk) ->
  ring_read blk h (n + m) =
  ring_read blk h n ++
  ring_read blk ((h + Z.of_nat n) mod Z.of_nat (length blk)) m.
Proof.
  induction n as [|n IH]; intros h Hh; simpl.
  - by rewrite Z.add_0_r, Z.mod_small.
  - destruct (lookup_lt_is_Some_2 blk (Z.to_nat h)) as [b ->]; [lia|].
    simpl. f_equal. rewrite IH by (apply Z.mod_pos_bound; lia).
    do 2 f_equal. rewrite Zplus_mod_idemp_l. f_equal. lia.
Qed.

(** Writing the slot just past the [k] bytes read from [h] appends to
    what is read and leaves the [k] bytes alone. *)
Lemma ring_read_snoc blk x k : forall h,
  0 <= h < Z.of_nat (length blk) ->
  Z.of_nat k < Z.of_nat (length blk) ->
  ring_read (<[Z.to_nat ((h + Z.of_nat k) mod Z.of_nat (length blk)) := x]> blk)
    h (S k) = ring_read blk h k ++ [x].
Proof.
  induction k as [|k IH]; intros h Hh Hk.
  - simpl. rewrite Z.add_0_r, Z.mod_small by lia.
    rewrite list_lookup_insert_eq by lia. done.
  - cbn [ring_read]. rewrite length_insert.
    assert ((h + Z.of_nat (S k)) mod Z.of_nat (length blk) <> h) as Hne.
    { intros E.
      destruct (Z.ltb_spec (h + Z.of_nat (S k)) (Z.of_nat (length blk))).
      - rewrite Z.mod_small in E; lia.
      - assert ((h + Z.of_nat (S k)) mod Z.of_nat (length blk)
                = h + Z.of_nat (S k) - Z.of_nat (length blk)) as E'
          by (symmetry; apply (Z.mod_unique_pos _ _ 1); lia).
        lia. }
    pose proof (Z.mod_pos_bound (h + Z.of_nat (S k)) (Z.of_nat (length blk))).
    rewrite list_lookup_insert_ne by lia.
    destruct (lookup_lt_is_Some_2 blk (Z.to_nat h)) as [b Hb]; [lia|].
    rewrite Hb. simpl app. f_equal.
    specialize (IH ((h + 1) mod Z.of_nat (length blk))).
    rewrite Zplus_mod_idemp_l in IH.
    replace (h + 1 + Z.of_nat k) with (h + Z.of_nat (S k)) in IH by lia.
    cbn [ring_read] in IH. rewrite length_insert in IH.
    apply IH; [apply Z.mod_pos_bound|]; lia.
Qed.

(** ** The enqueue loop *)

Lemma put_byte_ok q blk b :
  queue_ok q -> data q = Some blk -> current_size q < total_size q - 1 ->
  queue_ok (put_byte q blk b) /\
  contents (put_byte q blk b) = contents q ++ [b].
Proof.
  intros [Hocc (blk' & Hd & Hlen & Hmax)] Hblk Hroom.
  rewrite Hblk in Hd. injection Hd as <-.
  pose proof (occupancy_range q Hocc) as Hcur.
  pose proof (occupancy_tail q Hocc) as Htail.
  destruct Hocc as (Hh & Ht & Hc).
  repeat split; simpl.
  - lia.
  - lia.
  - apply Z.mod_pos_bound; lia.
  - apply Z.mod_pos_bound; lia.
  - rewrite Hc. rewrite mod_succ_cases by done.
    rewrite Hc, mod_sub_cases in Hroom by done.
    destruct (Z.ltb_spec (tail q + 1) (total_size q)).
    + rewrite !mod_sub_cases by lia.
      destruct (Z.leb_spec (head q) (tail q)), (Z.leb_spec (head q) (tail q + 1)); lia.
    + rewrite !mod_sub_cases by lia.
      destruct (Z.leb_spec (head q) (tail q)), (Z.leb_spec (head q) 0); lia.
  - exists (<[Z.to_nat (tail q) := b]> blk). rewrite length_insert. done.
  - unfold contents. simpl. rewrite Hblk.
    replace (Z.to_nat (current_size q + 1)) with (S (Z.to_nat (current_size q))) by lia.
    rewrite <- (ring_read_snoc blk b (Z.to_nat (current_size q)) (head q)) by lia.
    do 3 f_equal. rewrite Htail, Hlen. f_equal. lia.
Qed.

Lemma put_loop_full n q src put_num :
  occupancy_inv q -> total_size q <= UINT32_MAX ->
  current_size q = total_size q - 1 ->
  put_loop n q src put_num = Ok (put_num, q).
Proof.
  intros Hocc Hmax Hfull. destruct n as [|n]; [done|].
  pose proof (proj2 (occupancy_full q Hocc) Hfull) as E.
  destruct Hocc as (Hh & Ht & _).
  simpl. unfold umod.
  destruct (Z.eqb_spec (total_size q) 0); [lia|].
  rewrite wrap32_small by lia.
  simpl. rewrite E, Z.eqb_refl. done.
Qed.

Lemma put_loop_step n q src put_num blk b :
  queue_ok q -> data q = Some blk -> current_size q < total_size q - 1 ->
  src !! Z.to_nat put_num = Some b ->
  put_loop (S n) q src put_num =
  put_loop n (put_byte q blk b) src (wrap32 (put_num + 1)).
Proof.
  intros Hok Hblk Hroom Hb.
  destruct Hok as [Hocc (blk' & Hd & Hlen & Hmax)].
  rewrite Hblk in Hd. injection Hd as <-.
  pose proof (occupancy_range q Hocc) as Hcur.
  assert ((tail q + 1) mod total_size q <> head q) as Hne
    by (rewrite (occupancy_full q Hocc); lia).
  destruct Hocc as (Hh & Ht & _).
  cbn [put_loop]. unfold umod.
  destruct (Z.eqb_spec (total_size q) 0); [lia|].
  rewrite wrap32_small by lia. cbn [bind].
  destruct (Z.eqb_spec ((tail q + 1) mod total_size q) (head q)); [done|].
  unfold load. rewrite Hb. cbn [bind]. rewrite Hblk. cbn [deref bind].
  unfold store. destruct (Z.ltb_spec (tail q) (Z.of_nat (length blk))); [|lia].
  cbn [bind set_data tail total_size].
  destruct (Z.eqb_spec (total_size q) 0); [lia|].
  rewrite wrap32_small by lia. cbn [bind].
  unfold set_current_size, set_tail, set_data.
  cbn [data head tail total_size current_size].
  rewrite (wrap32_small (current_size q + 1)) by lia.
  done.
Qed.

(** The loop writes [min n (capacity - occupancy)] bytes, in order, behind
    the bytes already held. *)
Lemma put_loop_spec n : forall q src put_num m,
  queue_ok q -> 0 <= put_num ->
  put_num + Z.of_nat n <= Z.of_nat (length src) ->
  put_num + Z.of_nat n <= UINT32_MAX ->
  m = Z.min (Z.of_nat n) (capacity q - current_size q) ->
  exists q',
    put_loop n q src put_num = Ok (put_num + m, q') /\
    queue_ok q' /\
    head q' = head q /\
    total_size q' = total_size q /\
    current_size q' = current_size q + m /\
    contents q' =
      contents q ++ take (Z.to_nat m) (drop (Z.to_nat put_num) src).
Proof.
  unfold capacity.
  induction n as [|n IH]; intros q src put_num m Hok Hpos Hsrc Hmax Hm.
  - pose proof (occupancy_range q (proj1 Hok)).
    assert (m = 0) as -> by lia.
    exists q. change (Z.to_nat 0) with 0%nat. cbn [put_loop].
    rewrite take_0, !Z.add_0_r, app_nil_r. done.
  - pose proof (occupancy_range q (proj1 Hok)) as Hcur.
    destruct (Z.eq_dec (current_size q) (total_size q - 1)) as [Hfull|Hroom].
    + assert (m = 0) as -> by lia.
      destruct Hok as [Hocc Hst].
      exists q. change (Z.to_nat 0) with 0%nat.
      rewrite take_0, !Z.add_0_r, app_nil_r.
      rewrite put_loop_full; try done.
      destruct Hst as (? & ? & ? & ?). done.
    + destruct (proj2 Hok) as (blk & Hblk & Hlen & HT).
      destruct (lookup_lt_is_Some_2 src (Z.to_nat put_num)) as [b Hb]; [lia|].
      destruct (put_byte_ok q blk b) as [Hok1 Hc1]; [done | done | lia |].
      rewrite (put_loop_step n q src put_num blk b) by (done || lia).
      rewrite wrap32_small by lia.
      destruct (IH (put_byte q blk b) src (put_num + 1) (m - 1)) as
        (q' & Hrun & Hok' & Hh' & Ht' & Hc' & Hcont');
        [done | lia | lia | lia | cbn [put_byte total_size current_size]; lia |].
      cbn [put_byte total_size current_size head] in *.
      exists q'. rewrite Hrun, Hcont', Hc1.
      split; [do 2 f_equal; lia|].
      do 3 (split; [done|]). split; [lia|].
      rewrite <- app_assoc. f_equal.
      rewrite (drop_S src b (Z.to_nat put_num)) by done.
      replace (Z.to_nat m) with (S (Z.to_nat (m - 1))) by lia.
      replace (Z.to_nat (put_num + 1)) with (S (Z.to_nat put_num)) by lia.
      done.
Qed.

(** ** The dequeue loop *)

Lemma get_byte_ok q blk :
  queue_ok q -> data q = Some blk -> current_size q <> 0 ->
  exists b, blk !! Z.to_nat (head q) = Some b /\
    queue_ok (get_byte q) /\ contents q = b :: contents (get_byte q).
Proof.
  intros [Hocc (blk' & Hd & Hlen & Hmax)] Hblk Hne.
  rewrite Hblk in Hd. injection Hd as <-.
  pose proof (occupancy_range q Hocc) as Hcur.
  destruct Hocc as (Hh & Ht & Hc).
  destruct (lookup_lt_is_Some_2 blk (Z.to_nat (head q))) as [b Hb]; [lia|].
  exists b. split; [done|]. split; [split|].
  - unfold occupancy_inv, get_byte. simpl.
    split; [apply Z.mod_pos_bound; lia|]. split; [done|].
    rewrite Hc in Hne |- *. rewrite mod_succ_cases by done.
    rewrite mod_sub_cases in Hne by done.
    destruct (Z.ltb_spec (head q + 1) (total_size q)).
    + rewrite !mod_sub_cases by lia.
      destruct (Z.leb_spec (head q) (tail q)), (Z.leb_spec (head q + 1) (tail q)); lia.
    + rewrite !mod_sub_cases by lia.
      destruct (Z.leb_spec (head q) (tail q)), (Z.leb_spec 0 (tail q)); lia.
  - exists blk. done.
  - unfold contents, get_byte. simpl. rewrite Hblk.
    replace (Z.to_nat (current_size q)) with (S (Z.to_nat (current_size q - 1))) by lia.
    simpl. rewrite Hb, Hlen. done.
Qed.

Lemma get_loop_empty n q dst get_num :
  head q = tail q -> get_loop n q dst get_num = Ok (get_num, q, dst).
Proof.
  intros E. destruct n as [|n]; [done|]. simpl. rewrite E, Z.eqb_refl. done.
Qed.

Lemma get_loop_step n q dst get_num blk b :
  queue_ok q -> data q = Some blk -> current_size q <> 0 ->
  blk !! Z.to_nat (head q) = Some b ->
  0 <= get_num < Z.of_nat (length dst) ->
  get_loop (S n) q dst get_num =
  get_loop n (get_byte q) (<[Z.to_nat get_num := b]> dst) (wrap32 (get_num + 1)).
Proof.
  intros Hok Hblk Hne Hb Hdst.
  destruct Hok as [Hocc (blk' & Hd & Hlen & Hmax)].
  pose proof (occupancy_range q Hocc) as Hcur.
  assert (head q <> tail q) as Hht by (rewrite <- (occupancy_zero q Hocc); done).
  destruct Hocc as (Hh & Ht & _).
  cbn [get_loop].
  destruct (Z.eqb_spec (head q) (tail q)); [done|].
  rewrite Hblk. cbn [deref bind]. unfold load. rewrite Hb. cbn [bind].
  unfold store. destruct (Z.ltb_spec get_num (Z.of_nat (length dst))); [|lia].
  cbn [bind]. unfold umod.
  destruct (Z.eqb_spec (total_size q) 0); [lia|].
  rewrite wrap32_small by lia. cbn [bind].
  unfold set_current_size, set_head. cbn [data head tail total_size current_size].
  rewrite (wrap32_small (current_size q - 1)) by lia.
  done.
Qed.

(** The loop moves [min n occupancy] bytes, oldest first, into the
    caller's buffer from index [get_num] on and touches nothing else. *)
Lemma get_loop_spec n : forall q dst get_num m,
  queue_ok q -> 0 <= get_num ->
  get_num + Z.of_nat n <= Z.of_nat (length dst) ->
  get_num + Z.of_nat n <= UINT32_MAX ->
  m = Z.min (Z.of_nat n) (current_size q) ->
  exists q',
    get_loop n q dst get_num =
      Ok (get_num + m, q',
          take (Z.to_nat get_num) dst ++ take (Z.to_nat m) (contents q) ++
          drop (Z.to_nat (get_num + m)) dst) /\
    queue_ok q' /\
    tail q' = tail q /\
    data q' = data q /\
    total_size q' = total_size q /\
    current_size q' = current_size q - m /\
    contents q' = drop (Z.to_nat m) (contents q).
Proof.
  induction n as [|n IH]; intros q dst get_num m Hok Hpos Hdst Hmax Hm.
  - pose proof (occupancy_range q (proj1 Hok)).
    assert (m = 0) as -> by lia.
    exists q. change (Z.to_nat 0) with 0%nat. cbn [get_loop].
    rewrite take_0, drop_0, !Z.add_0_r, Z.sub_0_r. cbn [app]. rewrite take_drop. done.
  - pose proof (occupancy_range q (proj1 Hok)) as Hcur.
    destruct (Z.eq_dec (current_size q) 0) as [Hempty|Hne].
    + assert (m = 0) as -> by lia.
      exists q. change (Z.to_nat 0) with 0%nat.
      rewrite take_0, drop_0, !Z.add_0_r, Z.sub_0_r. cbn [app]. rewrite take_drop.
      rewrite get_loop_empty; [done|].
      by apply (occupancy_zero q (proj1 Hok)).
    + destruct (proj2 Hok) as (blk & Hblk & Hlen & HT).
      destruct (get_byte_ok q blk) as (b & Hb & Hok1 & Hc1); [done..|].
      rewrite (get_loop_step n q dst get_num blk b) by (done || lia).
      rewrite wrap32_small by lia.
      destruct (IH (get_byte q) (<[Z.to_nat get_num := b]> dst) (get_num + 1) (m - 1))
        as (q' & Hrun & Hok' & Ht' & Hd' & HT' & Hc' & Hcont');
        [done | lia | rewrite length_insert; lia | lia
        | cbn [get_byte current_size]; lia |].
      cbn [get_byte total_size current_size tail data] in *.
      exists q'. rewrite Hrun, Hcont', Hc1.
      replace (Z.to_nat m) with (S (Z.to_nat (m - 1))) by lia.
      split.
      { f_equal. f_equal; [f_equal; lia|].
        replace (Z.to_nat (get_num + 1)) with (S (Z.to_nat get_num)) by lia.
        rewrite (take_S_r _ _ b) by (apply list_lookup_insert_eq; lia).
        rewrite take_insert_ge by lia.
        rewrite drop_insert_lt by lia.
        rewrite <- app_assoc. cbn [firstn app].
        replace (get_num + 1 + (m - 1)) with (get_num + m) by lia. done. }
      do 4 (split; [done|]). split; [lia|]. done.
Qed.

(** ** The operations on a well-formed queue *)

Lemma contents_length q :
  queue_ok q -> Z.of_nat (length (contents q)) = current_size q.
Proof.
  intros [Hocc (blk & Hd & Hlen & Hmax)].
  pose proof (occupancy_range q Hocc).
  unfold contents. rewrite Hd, ring_read_length; [lia|].
  destruct Hocc as (? & _). lia.
Qed.

Lemma contents_empty q : current_size q = 0 -> contents q = [].
Proof. unfold contents. intros ->. by destruct (data q). Qed.

Lemma queue_put_data_spec q src data_len m :
  queue_ok q -> 1 <= data_len <= UINT32_MAX ->
  data_len <= Z.of_nat (length src) ->
  m = Z.min data_len (capacity q - current_size q) ->
  exists q',
    queue_put_data (Some q) (Some src) data_len = Ok (to_int m, Some q') /\
    queue_ok q' /\
    head q' = head q /\
    total_size q' = total_size q /\
    current_size q' = current_size q + m /\
    contents q' = contents q ++ take (Z.to_nat m) src.
Proof.
  intros Hok Hlen Hsrc Hm.
  destruct (put_loop_spec (Z.to_nat data_len) q src 0 m) as (q' & Hrun & H);
    [done | lia | lia | lia | lia |].
  exists q'. split; [|done].
  unfold queue_put_data. destruct (Z.eqb_spec data_len 0); [lia|].
  rewrite Hrun. done.
Qed.

Lemma drain_spec {W : Type} q dst data_len (wakes : list W) m :
  queue_ok q -> 1 <= data_len <= UINT32_MAX ->
  data_len <= Z.of_nat (length dst) ->
  m = Z.min data_len (current_size q) ->
  exists q',
    drain q dst data_len wakes =
      Ok (mk_dequeued (to_int m) (Some q')
            (Some (take (Z.to_nat m) (contents q) ++ drop (Z.to_nat m) dst))
            wakes) /\
    queue_ok q' /\
    tail q' = tail q /\
    data q' = data q /\
    total_size q' = total_size q /\
    current_size q' = current_size q - m /\
    contents q' = drop (Z.to_nat m) (contents q).
Proof.
  intros Hok Hlen Hdst Hm.
  destruct (get_loop_spec (Z.to_nat data_len) q dst 0 m) as (q' & Hrun & H);
    [done | lia | lia | lia | lia |].
  exists q'. split; [|done].
  unfold drain. rewrite Hrun. done.
Qed.

(** A drain never faults on a queue whose indices coincide. *)
Lemma drain_empty {W : Type} q dst data_len (wakes : list W) :
  head q = tail q ->
  drain q dst data_len wakes = Ok (mk_dequeued 0 (Some q) (Some dst) wakes).
Proof. intros E. unfold drain. rewrite get_loop_empty by done. done. Qed.

Lemma wait_loop_nonempty wakes q :
  current_size q <> 0 -> wait_loop wakes q = Some (q, wakes).
Proof.
  intros H. destruct wakes; simpl; unfold queue_get_current_size;
    destruct (Z.eqb_spec (current_size q) 0); done.
Qed.

Lemma queue_init_spec malloc q0 queue_size blk :
  1 <= queue_size <= UINT32_MAX - 1 ->
  malloc (queue_size + 1) = Some blk ->
  queue_init malloc (Some q0) queue_size =
    (true, Some (mk_queue (Some blk) 0 0 (queue_size + 1) 0)).
Proof.
  intros Hsz Hm. unfold queue_init, sizeof_uint8_t.
  destruct (Z.eqb_spec queue_size 0); [lia|].
  rewrite Z.mul_1_r, wrap32_small by (unfold UINT32_MAX in *; lia).
  cbn [set_data data]. rewrite Hm. done.
Qed.

Lemma fresh_queue_ok blk n :
  1 <= n <= UINT32_MAX - 1 -> Z.of_nat (length blk) = n + 1 ->
  queue_ok (mk_queue (Some blk) 0 0 (n + 1) 0).
Proof.
  intros Hn Hlen. split.
  - unfold occupancy_inv. simpl. rewrite Z.mod_0_l by lia. lia.
  - exists blk. simpl. split; [done|]. split; [done|]. lia.
Qed.

Lemma zero_malloc_ok : malloc_ok zero_malloc.
Proof. intros n blk Hn [= <-]. rewrite length_replicate. lia. Qed.

(** The scenario of the specification: capacity 4, four bytes in, a fifth
    refused, the four bytes out in order, then room for two more across the
    end of the block. *)
Example capacity_four_scenario :
  exists q0 q1 d q2 q3,
    queue_init zero_malloc (Some blank) 4 = (true, Some q0) /\
    queue_put_data (Some q0) (Some [x01; x02; x03; x04]) 4 = Ok (4, Some q1) /\
    queue_put_data (Some q1) (Some [x05]) 1 = Ok (0, Some q1) /\
    queue_get_data [] (Some q1) (Some [x00; x00; x00; x00]) 4 = Returns (Ok d) /\
    ret d = 4 /\ data_after d = Some [x01; x02; x03; x04] /\
    queue_after d = Some q2 /\ queue_get_current_size q2 = 0 /\
    queue_put_data (Some q2) (Some [x05; x06]) 2 = Ok (2, Some q3) /\
    contents q3 = [x05; x06] /\ tail q3 = 1.
Proof.
  do 5 eexists.
  do 10 (split; [vm_compute; reflexivity|]).
  vm_compute; reflexivity.
Qed.

(** ** Emptiness test against the size query *)

Lemma queue_is_empty_true q : queue_is_empty q = true -> current_size q = 0.
Proof.
  unfold queue_is_empty. destruct (Z.eqb_spec (current_size q) 0); congruence.
Qed.

(** C8.  For every queue state, [queue_is_empty] answers true exactly when
    [queue_get_current_size] answers 0: both read the cached
    [current_size] field and nothing else. *)
Theorem is_empty_iff_size_zero (q : queue_t) :
  queue_is_empty q = true <-> queue_get_current_size q = 0.
Proof.
  unfold queue_is_empty, queue_get_current_size.
  destruct (Z.eqb_spec (current_size q) 0); split; intros; congruence.
Qed.

(** ** Clearing *)

(** C6.  [queue_clear] on a non-null queue returns [true] and sets [head],
    [tail] and [current_size] to 0 while the [data] pointer, the bytes of
    the block behind it and [total_size] stay as they were (nothing is
    allocated and no byte is overwritten); the call returns [false] only
    for the null handle. *)
Theorem queue_clear_resets_indices_only :
  (forall q, exists q',
      queue_clear (Some q) = (true, Some q') /\
      head q' = 0 /\ tail q' = 0 /\ current_size q' = 0 /\
      data q' = data q /\ total_size q' = total_size q) /\
  (forall queue_name,
      (fst (queue_clear queue_name) = false) <-> (queue_name = None)).
Proof.
  split.
  - intros q. eexists. split; [reflexivity|]. simpl. done.
  - intros [q|]; simpl; split; intros; congruence.
Qed.

(** ** Timed dequeue *)

(** C5.  With [timeout = 0] a valid call of [queue_get_data_with_timeout]
    is exactly the drain step: it returns (it is never left blocked)
    whatever wake-ups are pending and consumes none of them; on a queue
    whose indices coincide it returns 0, queue and buffer untouched, and on
    a queue satisfying the occupancy invariant that is the case whenever
    [queue_is_empty] holds. *)
Theorem zero_timeout_goes_straight_to_drain
    (wakes : list (Z * queue_t)) (q : queue_t) (dst : list byte) (data_len : Z) :
  data_len <> 0 ->
  queue_get_data_with_timeout wakes (Some q) (Some dst) data_len 0 =
    Returns (drain q dst data_len wakes) /\
  (head q = tail q ->
   queue_get_data_with_timeout wakes (Some q) (Some dst) data_len 0 =
     Returns (Ok (mk_dequeued 0 (Some q) (Some dst) wakes))) /\
  (occupancy_inv q -> queue_is_empty q = true ->
   queue_get_data_with_timeout wakes (Some q) (Some dst) data_len 0 =
     Returns (Ok (mk_dequeued 0 (Some q) (Some dst) wakes))) /\
  (queue_ok q -> uint32 data_len -> data_len <= Z.of_nat (length dst) ->
   exists d,
     queue_get_data_with_timeout wakes (Some q) (Some dst) data_len 0 =
       Returns (Ok d) /\ ret d <> -1 /\ wakes_left d = wakes).
Proof.
  intros Hlen.
  assert (queue_get_data_with_timeout wakes (Some q) (Some dst) data_len 0 =
          Returns (drain q dst data_len wakes)) as E.
  { unfold queue_get_data_with_timeout.
    destruct (Z.eqb_spec data_len 0); [done|]. done. }
  split; [done|]. split; [|split].
  - intros Hht. rewrite E, drain_empty by done. done.
  - intros Hocc Hemp. rewrite E, drain_empty; [done|].
    apply (occupancy_zero q Hocc). by apply queue_is_empty_true.
  - intros Hok Hu Hdst. unfold uint32 in Hu.
    destruct (drain_spec q dst data_len wakes (Z.min data_len (current_size q)))
      as (q' & Hrun & _); [done | lia | done | done |].
    eexists. rewrite E, Hrun. split; [done|]. split; [|done].
    cbn [ret]. apply to_int_not_minus_one.
    pose proof (occupancy_range q (proj1 Hok)).
    destruct Hok as [_ (? & _ & _ & ?)]. lia.
Qed.

Lemma zero_timeout_goes_straight_to_drain_witness :
  queue_get_data_with_timeout [(0, blank)]
    (Some (mk_queue (Some [x00; x00; x00]) 1 1 3 0)) (Some [x00; x00]) 2 0 =
  Returns (Ok (mk_dequeued 0 (Some (mk_queue (Some [x00; x00; x00]) 1 1 3 0))
                 (Some [x00; x00]) [(0, blank)])).
Proof.
  destruct (zero_timeout_goes_straight_to_drain [(0, blank)]
              (mk_queue (Some [x00; x00; x00]) 1 1 3 0) [x00; x00] 2)
    as (_ & H & _); [lia|].
  exact (H eq_refl).
Defined.

(** What the wait loop of the timed dequeue does with its first wake-up. *)
Lemma timed_wait_loop_nonempty wakes q :
  current_size q <> 0 -> timed_wait_loop wakes q = Proceed q wakes.
Proof.
  intros H. destruct wakes; simpl; unfold queue_get_current_size;
    destruct (Z.eqb_spec (current_size q) 0); done.
Qed.

Lemma timed_wait_loop_retry wakes q q' :
  current_size q = 0 ->
  timed_wait_loop ((EINTR, q') :: wakes) q = timed_wait_loop wakes q'.
Proof.
  intros H. cbn [timed_wait_loop]. unfold queue_get_current_size.
  rewrite H, !Z.eqb_refl. done.
Qed.

Lemma timed_wait_loop_give_up wakes rc q q' :
  current_size q = 0 -> rc <> EINTR ->
  timed_wait_loop ((rc, q') :: wakes) q = GiveUp q' wakes.
Proof.
  intros H Hrc. cbn [timed_wait_loop]. unfold queue_get_current_size.
  rewrite H, Z.eqb_refl.
  destruct (Z.eqb_spec EINTR rc); [congruence | done].
Qed.

(** Whatever the wait reports, short of [EINTR], ends the call with -1:
    a timeout, an error, and also the return code 0 of a wait that was
    woken by a producer. *)
Lemma timed_get_first_wake_ends_call wakes rc q q' dst data_len timeout :
  data_len <> 0 -> 0 < timeout -> current_size q = 0 -> rc <> EINTR ->
  queue_get_data_with_timeout ((rc, q') :: wakes) (Some q) (Some dst)
    data_len timeout =
  Returns (Ok (mk_dequeued (-1) (Some q') (Some dst) wakes)).
Proof.
  intros Hlen Ht Hq Hrc. unfold queue_get_data_with_timeout.
  destruct (Z.eqb_spec data_len 0); [done|].
  destruct (Z.ltb_spec 0 timeout); [|lia].
  rewrite timed_wait_loop_give_up by done. done.
Qed.

(** The deadline passing is one of those return codes. *)
Lemma timed_get_deadline_elapsed wakes q q' dst data_len timeout :
  data_len <> 0 -> 0 < timeout -> current_size q = 0 ->
  queue_get_data_with_timeout ((ETIMEDOUT, q') :: wakes) (Some q) (Some dst)
    data_len timeout =
  Returns (Ok (mk_dequeued (-1) (Some q') (Some dst) wakes)).
Proof. intros. by apply timed_get_first_wake_ends_call. Qed.

(** An interrupted wait is followed by the next look at the queue. *)
Lemma timed_get_interrupted wakes q q' dst data_len timeout :
  data_len <> 0 -> 0 < timeout -> current_size q = 0 ->
  queue_get_data_with_timeout ((EINTR, q') :: wakes) (Some q) (Some dst)
    data_len timeout =
  queue_get_data_with_timeout wakes (Some q') (Some dst) data_len timeout.
Proof.
  intros Hlen Ht Hq. unfold queue_get_data_with_timeout.
  destruct (Z.eqb_spec data_len 0); [done|].
  destruct (Z.ltb_spec 0 timeout); [|lia].
  rewrite timed_wait_loop_retry by done. done.
Qed.

(** C1.  The claim fails on the code.  A consumer calls
    [queue_get_data_with_timeout] with a timeout of 1000 ms on the empty
    queue [q0]; while it sleeps a producer enqueues one byte and signals,
    so [pthread_cond_timedwait] returns 0 before the deadline with the
    queue [q1] holding that byte.  The call returns -1 and leaves the byte
    in the queue: the only exits of the wait loop's body are the retry on
    [EINTR] and [return -1]. *)
Theorem timed_get_returns_minus_one_after_successful_wake :
  exists q0 q1,
    queue_init zero_malloc (Some blank) 4 = (true, Some q0) /\
    queue_put_data (Some q0) (Some [x2a]) 1 = Ok (1, Some q1) /\
    queue_get_current_size q1 = 1 /\
    queue_get_data_with_timeout [(0, q1)] (Some q0) (Some [x00]) 1 1000 =
      Returns (Ok (mk_dequeued (-1) (Some q1) (Some [x00]) [])).
Proof.
  do 2 eexists.
  do 3 (split; [vm_compute; reflexivity|]).
  vm_compute; reflexivity.
Qed.

(** ** The occupancy invariant *)

Lemma queue_init_ok malloc q0 queue_size :
  malloc_ok malloc -> 1 <= queue_size <= UINT32_MAX - 1 ->
  match queue_init malloc (Some q0) queue_size with
  | (true, Some q) =>
      queue_ok q /\ current_size q = 0 /\ capacity q = queue_size
  | (true, None) => False
  | (false, _) => malloc (queue_size + 1) = None
  end.
Proof.
  intros Hm Hsz. destruct (malloc (queue_size + 1)) as [blk|] eqn:E.
  - rewrite (queue_init_spec malloc q0 queue_size blk) by done.
    split; [|split; [done | unfold capacity; simpl; lia]].
    apply fresh_queue_ok; [done|]. apply Hm; [lia | done].
  - unfold queue_init, sizeof_uint8_t.
    destruct (Z.eqb_spec queue_size 0); [lia|].
    rewrite Z.mul_1_r, wrap32_small by (unfold UINT32_MAX in *; lia).
    cbn [set_data data]. rewrite E. done.
Qed.

Lemma queue_clear_ok q :
  storage_ok q -> 0 < total_size q ->
  exists q', queue_clear (Some q) = (true, Some q') /\ queue_ok q' /\
    current_size q' = 0.
Proof.
  intros Hst HT. eexists. split; [reflexivity|]. split; [split|done].
  - unfold occupancy_inv. simpl. rewrite Z.mod_0_l by lia. lia.
  - destruct Hst as (blk & ? & ? & ?). exists blk. done.
Qed.

Lemma wait_loop_ok wakes : forall q q' rest,
  queue_ok q -> Forall queue_ok wakes ->
  wait_loop wakes q = Some (q', rest) ->
  queue_ok q' /\ current_size q' <> 0 /\ Forall queue_ok rest.
Proof.
  induction wakes as [|w wakes IH]; intros q q' rest Hok Hall; simpl;
    unfold queue_get_current_size;
    destruct (Z.eqb_spec (current_size q) 0); intros E; try done.
  - by injection E as <- <-.
  - inversion Hall; subst. by apply (IH w).
  - by injection E as <- <-.
Qed.

Lemma timed_wait_loop_ok wakes : forall q,
  queue_ok q -> Forall (fun w => queue_ok (snd w)) wakes ->
  match timed_wait_loop wakes q with
  | Proceed q' rest => queue_ok q' /\ current_size q' <> 0
  | GiveUp q' rest => queue_ok q'
  | Sleeping => True
  end.
Proof.
  induction wakes as [|[rc w] wakes IH]; intros q Hok Hall.
  - cbn [timed_wait_loop]. unfold queue_get_current_size.
    destruct (Z.eqb_spec (current_size q) 0); done.
  - inversion Hall; subst.
    destruct (Z.eq_dec (current_size q) 0) as [E|E].
    + destruct (Z.eq_dec rc EINTR) as [->|Hrc].
      * rewrite timed_wait_loop_retry by done. by apply IH.
      * rewrite timed_wait_loop_give_up by done. done.
    + rewrite timed_wait_loop_nonempty by done. done.
Qed.

(** Every operation that returns on a well-formed queue leaves a
    well-formed queue, and none of them faults there. *)
Lemma queue_get_data_ok wakes q dst data_len :
  queue_ok q -> Forall queue_ok wakes ->
  1 <= data_len <= UINT32_MAX -> data_len <= Z.of_nat (length dst) ->
  match queue_get_data wakes (Some q) (Some dst) data_len with
  | Returns (Ok d) => exists q', queue_after d = Some q' /\ queue_ok q'
  | Returns (UB _) => False
  | Blocked => wait_loop wakes q = None
  end.
Proof.
  intros Hok Hall Hlen Hdst. unfold queue_get_data.
  destruct (Z.eqb_spec data_len 0); [lia|].
  destruct (wait_loop wakes q) as [[q1 rest]|] eqn:E; [|done].
  destruct (wait_loop_ok wakes q q1 rest) as (Hok1 & _ & _); [done..|].
  destruct (drain_spec q1 dst data_len rest (Z.min data_len (current_size q1)))
    as (q' & -> & Hok' & _); [done..|].
  exists q'. done.
Qed.

Lemma queue_get_data_with_timeout_ok wakes q dst data_len timeout :
  queue_ok q -> Forall (fun w => queue_ok (snd w)) wakes ->
  1 <= data_len <= UINT32_MAX -> data_len <= Z.of_nat (length dst) ->
  match queue_get_data_with_timeout wakes (Some q) (Some dst) data_len timeout with
  | Returns (Ok d) => exists q', queue_after d = Some q' /\ queue_ok q'
  | Returns (UB _) => False
  | Blocked => timed_wait_loop wakes q = Sleeping
  end.
Proof.
  intros Hok Hall Hlen Hdst. unfold queue_get_data_with_timeout.
  destruct (Z.eqb_spec data_len 0); [lia|].
  destruct (Z.ltb_spec 0 timeout).
  - pose proof (timed_wait_loop_ok wakes q Hok Hall) as Hw.
    destruct (timed_wait_loop wakes q) as [q1 rest|q1 rest|]; [| |done].
    + destruct Hw as [Hok1 _].
      destruct (drain_spec q1 dst data_len rest (Z.min data_len (current_size q1)))
        as (q' & -> & Hok' & _); [done..|].
      exists q'. done.
    + exists q1. done.
  - destruct (drain_spec q dst data_len wakes (Z.min data_len (current_size q)))
      as (q' & -> & Hok' & _); [done..|].
    exists q'. done.
Qed.

(** C7.  The invariant fails after a successful [queue_init]: for
    [queue_size = UINT32_MAX] the length [queue_size + 1] wraps to 0, the
    allocator answers the request for 0 bytes with a non-null block, and
    the queue comes back with [total_size = 0], so [0 <= head < total_size]
    is false; [queue_clear] leaves it that way. *)
Theorem init_uint32_max_breaks_occupancy_inv :
  exists q q',
    queue_init zero_malloc (Some blank) UINT32_MAX = (true, Some q) /\
    total_size q = 0 /\ head q = 0 /\ tail q = 0 /\
    ~ occupancy_inv q /\
    queue_clear (Some q) = (true, Some q') /\ ~ occupancy_inv q'.
Proof.
  do 2 eexists. split; [vm_compute; reflexivity|].
  cbn [total_size head tail].
  split; [done|]. split; [done|]. split; [done|]. split.
  - unfold occupancy_inv. cbn [total_size head tail]. lia.
  - split; [reflexivity|]. unfold occupancy_inv. simpl. lia.
Qed.

(** ** First in, first out *)

Lemma put_all_spec chunks : forall q,
  queue_ok q -> Forall (fun c => c <> []) chunks ->
  current_size q + Z.of_nat (length (concat chunks)) <= capacity q ->
  exists q',
    put_all (Some q) chunks =
      Ok (map (fun c => to_int (Z.of_nat (length c))) chunks, Some q') /\
    queue_ok q' /\
    head q' = head q /\
    total_size q' = total_size q /\
    current_size q' = current_size q + Z.of_nat (length (concat chunks)) /\
    contents q' = contents q ++ concat chunks.
Proof.
  induction chunks as [|c chunks IH]; intros q Hok Hne Hroom.
  - exists q. cbn [put_all map concat length]. rewrite app_nil_r, Z.add_0_r. done.
  - inversion Hne as [|? ? Hc Hne']; subst.
    cbn [concat] in *. rewrite length_app in *.
    assert (1 <= Z.of_nat (length c)) by (destruct c; [done | simpl; lia]).
    pose proof (occupancy_range q (proj1 Hok)) as Hcur.
    assert (capacity q <= UINT32_MAX - 1) as Hcap
      by (unfold capacity; destruct Hok as [_ (? & _ & _ & ?)]; lia).
    destruct (queue_put_data_spec q c (Z.of_nat (length c)) (Z.of_nat (length c)))
      as (q1 & Hput & Hok1 & Hh1 & HT1 & Hc1 & Hcont1); [done | lia | lia | lia |].
    destruct (IH q1) as (q' & Hrest & Hok' & Hh' & HT' & Hc' & Hcont');
      [done | done | unfold capacity in *; lia |].
    exists q'. cbn [put_all map]. rewrite Hput. cbn [bind snd fst].
    rewrite Hrest. cbn [bind snd fst].
    split; [done|]. split; [done|]. split; [congruence|]. split; [congruence|].
    split; [lia|].
    rewrite Hcont', Hcont1, Nat2Z.id, firstn_all, <- app_assoc. done.
Qed.

Lemma get_all_spec lens : forall q,
  queue_ok q -> Forall (fun n => 1 <= n) lens ->
  sum_Z lens <= current_size q ->
  exists q',
    get_all (Some q) lens =
      Returns (Ok (map to_int lens,
                   take (Z.to_nat (sum_Z lens)) (contents q), Some q')) /\
    queue_ok q' /\
    current_size q' = current_size q - sum_Z lens /\
    contents q' = drop (Z.to_nat (sum_Z lens)) (contents q).
Proof.
  induction lens as [|n lens IH]; intros q Hok Hpos Hsum.
  - exists q. cbn [get_all map sum_Z foldr]. change (Z.to_nat 0) with 0%nat.
    rewrite take_0, drop_0, Z.sub_0_r. done.
  - inversion Hpos as [|? ? Hn Hpos']; subst.
    cbn [sum_Z foldr] in *. fold (sum_Z lens) in *.
    assert (0 <= sum_Z lens) as Hnn.
    { clear -Hpos'. induction Hpos'; cbn [sum_Z foldr]; [lia|].
      fold (sum_Z l). lia. }
    pose proof (occupancy_range q (proj1 Hok)) as Hcur.
    assert (total_size q <= UINT32_MAX) as HT
      by (destruct Hok as [_ (? & _ & _ & ?)]; done).
    destruct (drain_spec q (replicate (Z.to_nat n) x00) n (@nil queue_t) n)
      as (q1 & Hrun & Hok1 & _ & _ & _ & Hc1 & Hcont1);
      [done | lia | rewrite length_replicate; lia | lia |].
    destruct (IH q1) as (q' & Hrest & Hok' & Hc' & Hcont'); [done | done | lia |].
    exists q'. cbn [get_all map]. unfold queue_get_data.
    destruct (Z.eqb_spec n 0); [lia|].
    rewrite wait_loop_nonempty by lia. rewrite Hrun.
    cbn [queue_after data_after ret default]. rewrite Hrest.
    split; [|split; [done|split; [lia|]]].
    + do 3 f_equal. f_equal.
      rewrite (drop_ge (replicate _ _)) by (rewrite length_replicate; lia).
      rewrite app_nil_r, Hcont1.
      replace (Z.to_nat (n + sum_Z lens))
        with (Z.to_nat n + Z.to_nat (sum_Z lens))%nat by lia.
      unfold id. by rewrite take_take_drop.
    + rewrite Hcont', Hcont1, drop_drop. f_equal. lia.
Qed.

(** C3.  Bytes enqueued by any number of [queue_put_data] calls that are
    all accepted in full (together they fit the free room) come back from
    the following [queue_get_data] calls in exactly the order in which they
    were enqueued, behind the bytes the queue held before, when the lengths
    requested add up to what the queue holds; for a queue that was empty
    before the first put the gets read as many bytes as were enqueued and
    return exactly those bytes.  The queue may sit at any index, so the
    transfer may wrap around the end of the block.  Every put reports its
    whole chunk written and every get its whole request read; no call
    blocks and the queue ends up empty. *)
Theorem fifo_order (q : queue_t) (chunks : list (list byte)) (lens : list Z) :
  queue_ok q ->
  Forall (fun c => c <> []) chunks ->
  current_size q + Z.of_nat (length (concat chunks)) <= capacity q ->
  Forall (fun n => 1 <= n) lens ->
  sum_Z lens = current_size q + Z.of_nat (length (concat chunks)) ->
  exists q1 q2,
    put_all (Some q) chunks =
      Ok (map (fun c => to_int (Z.of_nat (length c))) chunks, Some q1) /\
    get_all (Some q1) lens =
      Returns (Ok (map to_int lens, contents q ++ concat chunks, Some q2)) /\
    current_size q2 = 0 /\
    (current_size q = 0 ->
     sum_Z lens = Z.of_nat (length (concat chunks)) /\
     get_all (Some q1) lens =
       Returns (Ok (map to_int lens, concat chunks, Some q2))).
Proof.
  intros Hok Hne Hfit Hpos Hsum.
  destruct (put_all_spec chunks q) as (q1 & Hput & Hok1 & _ & _ & Hc1 & Hcont1);
    [done..|].
  destruct (get_all_spec lens q1) as (q2 & Hget & _ & Hc2 & _);
    [done | done | lia |].
  assert (get_all (Some q1) lens =
          Returns (Ok (map to_int lens, contents q ++ concat chunks, Some q2)))
    as Hall.
  { rewrite Hget, <- Hcont1. do 3 f_equal. f_equal. apply take_ge.
    pose proof (contents_length q1 Hok1). lia. }
  exists q1, q2. split; [done|]. split; [done|]. split; [lia|].
  intros Hempty. split; [lia|].
  rewrite Hall, (contents_empty q Hempty). done.
Qed.

Lemma fifo_order_witness :
  exists q1 q2,
    put_all (Some (mk_queue (Some [x00; x00; x00; x00]) 3 3 4 0))
      [[x01; x02]; [x03]] = Ok ([2; 1], Some q1) /\
    get_all (Some q1) [1; 2] =
      Returns (Ok ([1; 2], [x01; x02; x03], Some q2)) /\
    current_size q2 = 0.
Proof.
  destruct (fifo_order (mk_queue (Some [x00; x00; x00; x00]) 3 3 4 0)
              [[x01; x02]; [x03]] [1; 2]) as (q1 & q2 & Hput & Hget & Hc & _).
  - concrete_queue_ok.
  - repeat constructor; discriminate.
  - vm_compute. discriminate.
  - repeat constructor; vm_compute; discriminate.
  - reflexivity.
  - exists q1, q2. split; [exact Hput|]. split; [exact Hget|]. exact Hc.
Defined.

(** ** Capacity *)

Lemma zero_queue_init n :
  1 <= n <= UINT32_MAX - 1 ->
  queue_init zero_malloc (Some blank) n = (true, Some (zero_queue n)).
Proof. intros Hn. by apply queue_init_spec. Qed.

Lemma zero_queue_ok n : 1 <= n <= UINT32_MAX - 1 -> queue_ok (zero_queue n).
Proof.
  intros Hn. apply fresh_queue_ok; [done|]. rewrite length_replicate. lia.
Qed.

Lemma zeros_length n : 0 <= n -> Z.of_nat (length (zeros n)) = n.
Proof. intros Hn. unfold zeros. rewrite length_replicate. lia. Qed.

(** A put into a full queue changes nothing and returns 0, however often
    it is repeated. *)
Lemma put_full q src data_len :
  queue_ok q -> current_size q = capacity q -> data_len <> 0 ->
  queue_put_data (Some q) (Some src) data_len = Ok (0, Some q).
Proof.
  intros [Hocc (blk & _ & _ & HT)] Hfull Hlen. unfold queue_put_data.
  destruct (Z.eqb_spec data_len 0); [done|].
  rewrite put_loop_full; [done..|]. exact Hfull.
Qed.

Lemma put_all_full q bs :
  queue_ok q -> current_size q = capacity q ->
  put_all (Some q) (map (fun b => [b]) bs) = Ok (map (fun _ => 0) bs, Some q).
Proof.
  intros Hok Hfull. induction bs as [|b bs IH]; [done|].
  cbn [map put_all length]. rewrite put_full by done.
  cbn [bind snd fst]. rewrite IH. done.
Qed.

(** For every capacity [N] from 1 to
    [UINT32_MAX - 1] and every allocation that succeeds, [queue_init]
    returns a queue into which a single put of [N] bytes stores all [N]
    bytes; the [int] returned is [N] when [N <= INT_MAX] (and [N - 2^32],
    a negative number, above).  Every following put of one byte returns 0
    and leaves the queue as it is, however many are tried, and after a get
    that removed at least one byte a put of one byte returns 1. *)
Theorem capacity_bound (malloc : Z -> option (list byte)) (q0 : queue_t)
    (N : Z) (blk src : list byte) :
  malloc_ok malloc -> 1 <= N <= UINT32_MAX - 1 ->
  malloc (N + 1) = Some blk -> Z.of_nat (length src) = N ->
  exists q q1,
    queue_init malloc (Some q0) N = (true, Some q) /\
    queue_put_data (Some q) (Some src) N = Ok (to_int N, Some q1) /\
    (N <= INT_MAX -> to_int N = N) /\
    current_size q1 = N /\ contents q1 = src /\
    (forall bs, put_all (Some q1) (map (fun b => [b]) bs)
                = Ok (map (fun _ => 0) bs, Some q1)) /\
    (forall dst n b, 1 <= n <= UINT32_MAX -> n <= Z.of_nat (length dst) ->
       exists d q2 q3,
         queue_get_data [] (Some q1) (Some dst) n = Returns (Ok d) /\
         queue_after d = Some q2 /\
         queue_put_data (Some q2) (Some [b]) 1 = Ok (1, Some q3)).
Proof.
  intros Hm HN Hblk Hsrc.
  pose proof (queue_init_ok malloc q0 N Hm HN) as Hinit.
  rewrite (queue_init_spec malloc q0 N blk) in * by done.
  destruct Hinit as (Hok & Hc0 & Hcap).
  set (q := mk_queue (Some blk) 0 0 (N + 1) 0) in *.
  destruct (queue_put_data_spec q src N N)
    as (q1 & Hput & Hok1 & _ & HT1 & Hc1 & Hcont1); [done | lia | lia | lia |].
  exists q, q1. split; [done|]. split; [done|].
  split; [apply to_int_small|].
  assert (current_size q1 = capacity q1) as Hfull
    by (unfold capacity in *; lia).
  split; [lia|]. split.
  { rewrite Hcont1, (contents_empty q Hc0), <- Hsrc, Nat2Z.id, firstn_all. done. }
  split; [intros bs; by apply put_all_full|].
  intros dst n b Hn Hdst.
  destruct (drain_spec q1 dst n (@nil queue_t) (Z.min n (current_size q1)))
    as (q2 & Hrun & Hok2 & _ & _ & HT2 & Hc2 & _); [done..|].
  destruct (queue_put_data_spec q2 [b] 1 1)
    as (q3 & Hput3 & _); [done | unfold UINT32_MAX; lia | simpl; lia
                          | unfold capacity in *; lia |].
  eexists _, q2, q3. unfold queue_get_data.
  destruct (Z.eqb_spec n 0); [lia|].
  rewrite wait_loop_nonempty by lia. rewrite Hrun.
  split; [done|]. split; [done|].
  rewrite Hput3. rewrite to_int_small by (unfold INT_MAX; lia). done.
Qed.

Lemma capacity_bound_witness :
  exists q q1,
    queue_init zero_malloc (Some blank) 2 = (true, Some q) /\
    queue_put_data (Some q) (Some [x01; x02]) 2 = Ok (2, Some q1) /\
    contents q1 = [x01; x02] /\
    put_all (Some q1) [[x03]; [x04]] = Ok ([0; 0], Some q1).
Proof.
  destruct (capacity_bound zero_malloc blank 2 [x00; x00; x00] [x01; x02])
    as (q & q1 & Hinit & Hput & _ & _ & Hcont & Hfull & _).
  - exact zero_malloc_ok.
  - vm_compute. split; discriminate.
  - reflexivity.
  - reflexivity.
  - exists q, q1. split; [exact Hinit|]. split; [exact Hput|].
    split; [exact Hcont|]. exact (Hfull [x03; x04]).
Defined.

(** At capacity [2^31] the put of [2^31] bytes into the empty queue does
    not return [2^31]. *)
Lemma capacity_bound_fails_above_int_max :
  queue_init zero_malloc (Some blank) 2147483648
    = (true, Some (zero_queue 2147483648)) /\
  ~ exists q1,
      queue_put_data (Some (zero_queue 2147483648)) (Some (zeros 2147483648))
        2147483648 = Ok (2147483648, Some q1).
Proof.
  split; [apply zero_queue_init; unfold UINT32_MAX; lia|].
  intros (q1 & Hput).
  destruct (queue_put_data_spec (zero_queue 2147483648) (zeros 2147483648)
              2147483648 2147483648) as (q' & Hrun & _).
  - apply zero_queue_ok. unfold UINT32_MAX. lia.
  - unfold UINT32_MAX. lia.
  - rewrite zeros_length; lia.
  - unfold capacity, zero_queue. cbn [total_size current_size]. lia.
  - rewrite Hrun in Hput. rewrite to_int_large in Hput by (unfold INT_MAX; lia).
    injection Hput as Hret _. lia.
Qed.

(** ** Return value of the enqueue *)

(** [queue_put_data] returns -1 exactly when the
    queue pointer is null, the data pointer is null or the length is 0,
    and then changes nothing.  Every other call on a well-formed queue
    writes some number [m] of bytes, [0 <= m <= data_len], behind the bytes
    already held and returns [m] converted to [int]: [m] itself as long as
    [m <= INT_MAX].  When [m] is short of [data_len] the queue is full
    afterwards. *)
Theorem put_return_value (queue_name : option queue_t)
    (src : option (list byte)) (data_len : Z) :
  uint32 data_len ->
  (forall q, queue_name = Some q -> queue_ok q) ->
  (forall bytes, src = Some bytes -> data_len <= Z.of_nat (length bytes)) ->
  exists r queue_name',
    queue_put_data queue_name src data_len = Ok (r, queue_name') /\
    (r = -1 <-> (queue_name = None \/ src = None \/ data_len = 0)) /\
    (r = -1 -> queue_name' = queue_name) /\
    (forall q bytes,
       queue_name = Some q -> src = Some bytes -> data_len <> 0 ->
       exists m q',
         queue_name' = Some q' /\ r = to_int m /\ 0 <= m <= data_len /\
         (m <= INT_MAX -> r = m) /\
         current_size q' = current_size q + m /\
         contents q' = contents q ++ take (Z.to_nat m) bytes /\
         (m < data_len -> current_size q' = capacity q')).
Proof.
  intros Hu Hq Hsrc. unfold uint32 in Hu.
  destruct queue_name as [q|]; [destruct src as [bytes|]|].
  - destruct (Z.eq_dec data_len 0) as [->|Hne].
    + exists (-1), (Some q). cbn. split; [done|]. split; [tauto|].
      split; [done|]. intros; lia.
    + pose proof (occupancy_range q (proj1 (Hq q eq_refl))) as Hcur.
      assert (total_size q <= UINT32_MAX) as HT
        by (destruct (Hq q eq_refl) as [_ (? & _ & _ & ?)]; done).
      set (m := Z.min data_len (capacity q - current_size q)).
      assert (0 <= m <= UINT32_MAX - 1) as Hm by (unfold capacity in *; lia).
      destruct (queue_put_data_spec q bytes data_len m)
        as (q' & Hput & Hok' & _ & HT' & Hc' & Hcont'); [auto | lia | auto | done |].
      exists (to_int m), (Some q'). split; [done|]. split.
      { split; [intros E; by apply to_int_not_minus_one in E|].
        intros [|[|]]; done. }
      split; [intros E; by apply to_int_not_minus_one in E|].
      intros q0 bytes0 [= <-] [= <-] _. exists m, q'.
      split; [done|]. split; [done|]. split; [lia|].
      split; [apply to_int_small|]. split; [done|]. split; [done|].
      unfold capacity in *. lia.
  - exists (-1), (Some q). cbn. split; [done|]. split; [tauto|].
    split; [done|]. intros; done.
  - exists (-1), None. cbn. split; [done|]. split; [tauto|].
    split; [done|]. intros; done.
Qed.

Lemma put_return_value_witness :
  exists r queue_name',
    queue_put_data (Some (mk_queue (Some [x00; x00; x00]) 2 2 3 0))
      (Some [x01; x02; x03]) 3 = Ok (r, queue_name') /\
    r <> -1.
Proof.
  destruct (put_return_value (Some (mk_queue (Some [x00; x00; x00]) 2 2 3 0))
              (Some [x01; x02; x03]) 3) as (r & qn & Hput & Hiff & _).
  - vm_compute. split; discriminate.
  - intros q [= <-]. concrete_queue_ok.
  - intros bytes [= <-]. vm_compute. discriminate.
  - exists r, qn. split; [exact Hput|].
    intros E. apply Hiff in E. destruct E as [E|[E|E]]; discriminate.
Defined.

(** On the empty queue of capacity [UINT32_MAX - 1] with as many bytes to
    put, the value returned is not between 0 and [data_len]. *)
Lemma put_return_value_fails_above_int_max :
  queue_ok (zero_queue 4294967294) /\
  Z.of_nat (length (zeros 4294967294)) = 4294967294 /\
  ~ exists r queue_name',
      queue_put_data (Some (zero_queue 4294967294)) (Some (zeros 4294967294))
        4294967294 = Ok (r, queue_name') /\
      0 <= r <= 4294967294.
Proof.
  assert (queue_ok (zero_queue 4294967294)) as Hok
    by (apply zero_queue_ok; unfold UINT32_MAX; lia).
  split; [done|]. split; [rewrite zeros_length; lia|].
  intros (r & qn & Hput & Hr).
  destruct (queue_put_data_spec (zero_queue 4294967294) (zeros 4294967294)
              4294967294 4294967294) as (q' & Hrun & _).
  - done.
  - unfold UINT32_MAX. lia.
  - rewrite zeros_length; lia.
  - unfold capacity, zero_queue. cbn [total_size current_size]. lia.
  - rewrite Hrun in Hput. rewrite to_int_large in Hput by (unfold INT_MAX; lia).
    injection Hput as Hret _. lia.
Qed.

(** ** Transfer counts *)

(** On a well-formed queue of capacity [C]
    holding [k] bytes a valid [queue_put_data] writes exactly
    [min data_len (C - k)] bytes, in order, behind the bytes held, leaves
    the occupancy at [k] plus that count and returns the count converted to
    [int], which is the count itself up to [INT_MAX]; the drain step moves
    exactly the [min data_len k] oldest bytes to the front of the caller's
    buffer; and that drain step is what [queue_get_data] and
    [queue_get_data_with_timeout] run on a queue that holds something, for
    a thread alone with the queue. *)
Theorem transfer_counts (q : queue_t) :
  queue_ok q ->
  (forall src data_len m,
      1 <= data_len <= UINT32_MAX -> data_len <= Z.of_nat (length src) ->
      m = Z.min data_len (capacity q - current_size q) ->
      exists q',
        queue_put_data (Some q) (Some src) data_len = Ok (to_int m, Some q') /\
        (m <= INT_MAX -> to_int m = m) /\
        current_size q' = current_size q + m /\
        contents q' = contents q ++ take (Z.to_nat m) src) /\
  (forall (W : Type) dst data_len (wakes : list W) m,
      1 <= data_len <= UINT32_MAX -> data_len <= Z.of_nat (length dst) ->
      m = Z.min data_len (current_size q) ->
      exists q',
        drain q dst data_len wakes =
          Ok (mk_dequeued (to_int m) (Some q')
                (Some (take (Z.to_nat m) (contents q) ++ drop (Z.to_nat m) dst))
                wakes) /\
        (m <= INT_MAX -> to_int m = m) /\
        current_size q' = current_size q - m /\
        contents q' = drop (Z.to_nat m) (contents q)) /\
  (forall dst data_len, data_len <> 0 -> current_size q <> 0 ->
      (forall wakes,
          queue_get_data wakes (Some q) (Some dst) data_len =
          Returns (drain q dst data_len wakes)) /\
      (forall wakes timeout,
          queue_get_data_with_timeout wakes (Some q) (Some dst) data_len timeout =
          Returns (drain q dst data_len wakes))).
Proof.
  intros Hok. split; [|split].
  - intros src data_len m Hlen Hsrc Hm.
    destruct (queue_put_data_spec q src data_len m)
      as (q' & Hput & _ & _ & _ & Hc' & Hcont'); [done..|].
    exists q'. split; [done|]. split; [apply to_int_small|]. done.
  - intros W dst data_len wakes m Hlen Hdst Hm.
    destruct (drain_spec q dst data_len wakes m)
      as (q' & Hrun & _ & _ & _ & _ & Hc' & Hcont'); [done..|].
    exists q'. split; [done|]. split; [apply to_int_small|]. done.
  - intros dst data_len Hlen Hne. split.
    + intros wakes. unfold queue_get_data.
      destruct (Z.eqb_spec data_len 0); [done|].
      rewrite wait_loop_nonempty by done. done.
    + intros wakes timeout. unfold queue_get_data_with_timeout.
      destruct (Z.eqb_spec data_len 0); [done|].
      rewrite timed_wait_loop_nonempty by done.
      destruct (0 <? timeout); done.
Qed.

Lemma transfer_counts_witness :
  exists q',
    queue_put_data (Some (mk_queue (Some [x07; x00; x00; x00]) 0 1 4 1))
      (Some [x01; x02; x03]) 3 = Ok (2, Some q') /\
    current_size q' = 3 /\ contents q' = [x07; x01; x02].
Proof.
  destruct (transfer_counts (mk_queue (Some [x07; x00; x00; x00]) 0 1 4 1))
    as (Hput & _).
  - concrete_queue_ok.
  - destruct (Hput [x01; x02; x03] 3 2) as (q' & H1 & _ & H2 & H3).
    + vm_compute. split; discriminate.
    + vm_compute. discriminate.
    + reflexivity.
    + exists q'. split; [exact H1|]. split; [exact H2|]. exact H3.
Defined.

(** On the empty queue of capacity 3000000000 with 2500000000 bytes to
    put, the value returned is not [min data_len (C - k)]. *)
Lemma transfer_counts_fails_above_int_max :
  queue_ok (zero_queue 3000000000) /\
  Z.of_nat (length (zeros 2500000000)) = 2500000000 /\
  ~ exists q',
      queue_put_data (Some (zero_queue 3000000000)) (Some (zeros 2500000000))
        2500000000
      = Ok (Z.min 2500000000
              (capacity (zero_queue 3000000000)
               - current_size (zero_queue 3000000000)), Some q').
Proof.
  assert (queue_ok (zero_queue 3000000000)) as Hok
    by (apply zero_queue_ok; unfold UINT32_MAX; lia).
  split; [done|]. split; [rewrite zeros_length; lia|].
  intros (q1 & Hput).
  destruct (queue_put_data_spec (zero_queue 3000000000) (zeros 2500000000)
              2500000000 2500000000) as (q' & Hrun & _).
  - done.
  - unfold UINT32_MAX. lia.
  - rewrite zeros_length; lia.
  - unfold capacity, zero_queue. cbn [total_size current_size]. lia.
  - rewrite Hrun in Hput. rewrite to_int_large in Hput by (unfold INT_MAX; lia).
    unfold capacity, zero_queue in Hput. cbn [total_size current_size] in Hput.
    injection Hput as Hret _. lia.
Qed.

(** ** The length computed by [queue_init] *)

Lemma queue_init_wraps malloc q0 blk :
  malloc 0 = Some blk ->
  queue_init malloc (Some q0) UINT32_MAX =
    (true, Some (mk_queue (Some blk) 0 0 0 0)).
Proof.
  intros Hm. unfold queue_init, sizeof_uint8_t.
  change (UINT32_MAX =? 0) with false.
  change (wrap32 (UINT32_MAX * 1 + 1)) with 0.
  cbn [set_data data]. rewrite Hm. done.
Qed.

Lemma put_loop_div_by_zero n q src put_num :
  total_size q = 0 -> put_loop (S n) q src put_num = UB DivByZero.
Proof. intros H. cbn [put_loop]. unfold umod. rewrite H. done. Qed.

(** C10, as the code has it.  For [queue_size = UINT32_MAX] the length
    wraps to 0; when the allocator answers the request for 0 bytes with a
    block, [queue_init] succeeds and leaves [total_size = 0].  Every valid
    [queue_put_data] on that queue then divides by zero in its first
    full-queue test.  The drain step does not: it finds [head = tail] and
    returns 0 before its modulo is evaluated.  For every [queue_size] up to
    [UINT32_MAX - 1] a successful [queue_init] leaves
    [total_size = queue_size + 1 >= 2], a well-formed queue, and the
    modulo by [total_size] is defined. *)
Theorem init_length_wraps :
  (forall malloc q0 blk,
      malloc 0 = Some blk ->
      let q := mk_queue (Some blk) 0 0 0 0 in
      queue_init malloc (Some q0) UINT32_MAX = (true, Some q) /\
      (forall src data_len,
          1 <= data_len <= UINT32_MAX ->
          queue_put_data (Some q) (Some src) data_len = UB DivByZero) /\
      (forall (W : Type) dst data_len (wakes : list W),
          drain q dst data_len wakes =
          Ok (mk_dequeued 0 (Some q) (Some dst) wakes))) /\
  (forall malloc q0 queue_size q,
      malloc_ok malloc -> 0 <= queue_size <= UINT32_MAX - 1 ->
      queue_init malloc (Some q0) queue_size = (true, Some q) ->
      total_size q = queue_size + 1 /\ 2 <= total_size q /\ queue_ok q /\
      forall a, umod a (total_size q) = Ok (a mod total_size q)).
Proof.
  split.
  - intros malloc q0 blk Hm q. split; [by apply queue_init_wraps|]. split.
    + intros src data_len Hlen. unfold queue_put_data.
      destruct (Z.eqb_spec data_len 0); [lia|].
      destruct (Z.to_nat data_len) as [|k] eqn:E; [lia|].
      rewrite put_loop_div_by_zero by done. done.
    + intros W dst data_len wakes. by apply drain_empty.
  - intros malloc q0 queue_size q Hm Hsz Hinit.
    destruct (Z.eq_dec queue_size 0) as [->|Hne]; [done|].
    pose proof (queue_init_ok malloc q0 queue_size Hm) as Hok.
    rewrite Hinit in Hok. destruct Hok as (Hok & _ & Hcap); [lia|].
    unfold capacity in Hcap.
    split; [lia|]. split; [lia|]. split; [done|].
    intros a. unfold umod. destruct (Z.eqb_spec (total_size q) 0); [lia | done].
Qed.

Lemma init_length_wraps_witness :
  queue_init zero_malloc (Some blank) UINT32_MAX =
    (true, Some (mk_queue (Some []) 0 0 0 0)) /\
  queue_put_data (Some (mk_queue (Some []) 0 0 0 0)) (Some [x01]) 1 =
    UB DivByZero /\
  2 <= total_size (zero_queue 1).
Proof.
  destruct init_length_wraps as [Hwrap Hguard].
  destruct (Hwrap zero_malloc blank [] eq_refl) as (Hinit & Hput & _).
  split; [exact Hinit|]. split.
  - apply Hput. vm_compute. split; discriminate.
  - apply (Hguard zero_malloc blank 1 (zero_queue 1)).
    + exact zero_malloc_ok.
    + vm_compute. split; discriminate.
    + reflexivity.
Defined.

(** The claim C10 on the queue [queue_init] returns for
    [queue_size = UINT32_MAX]: no drain divides by zero there, and the
    timed dequeue with a zero timeout returns 0. *)
Lemma drain_after_wrapped_init_does_not_divide :
  queue_init zero_malloc (Some blank) UINT32_MAX =
    (true, Some (mk_queue (Some []) 0 0 0 0)) /\
  queue_get_data_with_timeout [] (Some (mk_queue (Some []) 0 0 0 0))
    (Some [x00]) 1 0 =
    Returns (Ok (mk_dequeued 0 (Some (mk_queue (Some []) 0 0 0 0))
                   (Some [x00]) [])) /\
  ~ exists dst data_len (wakes : list (Z * queue_t)),
      drain (mk_queue (Some []) 0 0 0 0) dst data_len wakes = UB DivByZero.
Proof.
  split; [reflexivity|]. split; [reflexivity|].
  intros (dst & data_len & wakes & H).
  rewrite drain_empty in H by done. discriminate.
Qed.

(** * Further properties of the operations *)

(** ** Initialisation *)

(** [queue_init] fails exactly for a null handle, a zero size or a failed
    allocation: the first two leave the structure alone, the third has
    already stored the null pointer in [data]; otherwise, for a size up to
    [UINT32_MAX - 1], it builds a well-formed empty queue over the block
    that was allocated, with room for exactly [queue_size] bytes. *)
Theorem queue_init_outcome (malloc : Z -> option (list byte)) (q0 : queue_t)
    (queue_size : Z) :
  malloc_ok malloc -> 0 <= queue_size <= UINT32_MAX - 1 ->
  queue_init malloc None queue_size = (false, None) /\
  (queue_size = 0 ->
   queue_init malloc (Some q0) queue_size = (false, Some q0)) /\
  (queue_size <> 0 -> malloc (queue_size + 1) = None ->
   queue_init malloc (Some q0) queue_size = (false, Some (set_data q0 None))) /\
  (queue_size <> 0 -> forall blk, malloc (queue_size + 1) = Some blk ->
   exists q,
     queue_init malloc (Some q0) queue_size = (true, Some q) /\
     data q = Some blk /\ queue_ok q /\ contents q = [] /\
     capacity q = queue_size /\ queue_get_current_size q = 0 /\
     queue_is_empty q = true).
Proof.
  intros Hm Hsz. split; [done|]. split; [by intros ->|]. split.
  - intros Hne Hnull. unfold queue_init, sizeof_uint8_t.
    destruct (Z.eqb_spec queue_size 0); [done|].
    rewrite Z.mul_1_r, wrap32_small by (unfold UINT32_MAX in *; lia).
    cbn [set_data data]. rewrite Hnull. done.
  - intros Hne blk Hblk. eexists.
    split; [apply queue_init_spec; [lia | done]|].
    split; [done|]. split.
    { apply fresh_queue_ok; [lia|]. apply Hm; [lia | done]. }
    split; [done|]. split; [unfold capacity; simpl; lia|]. done.
Qed.

Lemma queue_init_outcome_witness :
  exists q,
    queue_init zero_malloc (Some blank) 3 = (true, Some q) /\
    queue_ok q /\ capacity q = 3.
Proof.
  destruct (queue_init_outcome zero_malloc blank 3) as (_ & _ & _ & H).
  - exact zero_malloc_ok.
  - vm_compute. split; discriminate.
  - destruct (H ltac:(discriminate) (replicate 4 x00) eq_refl)
      as (q & H1 & _ & H2 & _ & H3 & _).
    exists q. split; [exact H1|]. split; [exact H2 | exact H3].
Defined.

(** ** The blocking dequeue *)

(** As long as every wake-up finds the count at zero, [queue_get_data] on
    an empty queue goes back to sleep: wake-ups that no enqueue caused do
    not make it return. *)
Theorem blocking_get_sleeps_through_spurious_wakeups
    (wakes : list queue_t) (q : queue_t) (dst : list byte) (data_len : Z) :
  data_len <> 0 -> current_size q = 0 ->
  Forall (fun w => current_size w = 0) wakes ->
  queue_get_data wakes (Some q) (Some dst) data_len = Blocked.
Proof.
  intros Hlen Hq Hall. unfold queue_get_data.
  destruct (Z.eqb_spec data_len 0); [done|].
  assert (wait_loop wakes q = None) as ->; [|done].
  revert q Hq. induction Hall as [|w wakes Hw Hall IH]; intros q Hq;
    cbn [wait_loop]; unfold queue_get_current_size; rewrite Hq, Z.eqb_refl;
    [done | by apply IH].
Qed.

Lemma blocking_get_sleeps_through_spurious_wakeups_witness :
  queue_get_data [zero_queue 2; zero_queue 2] (Some (zero_queue 2))
    (Some [x00]) 1 = Blocked.
Proof.
  apply blocking_get_sleeps_through_spurious_wakeups.
  - discriminate.
  - reflexivity.
  - repeat constructor.
Defined.

(** Alone with the queue the shared dequeues are the dequeues. *)
Lemma queue_get_data_alone wakes queue_name dst data_len :
  queue_get_data_shared wakes (fun q => q) queue_name dst data_len =
  queue_get_data wakes queue_name dst data_len.
Proof. reflexivity. Qed.

Lemma queue_get_data_with_timeout_alone wakes queue_name dst data_len timeout :
  queue_get_data_with_timeout_shared wakes (fun q => q) queue_name dst
    data_len timeout =
  queue_get_data_with_timeout wakes queue_name dst data_len timeout.
Proof. reflexivity. Qed.

Lemma wait_loop_first_data spurious : forall q w rest,
  current_size q = 0 ->
  Forall (fun w => current_size w = 0) spurious ->
  current_size w <> 0 ->
  wait_loop (spurious ++ w :: rest) q = Some (w, rest).
Proof.
  induction spurious as [|s spurious IH]; intros q w rest Hq Hall Hw;
    cbn [app wait_loop]; unfold queue_get_current_size; rewrite Hq, Z.eqb_refl.
  - by apply wait_loop_nonempty.
  - inversion Hall; subst. by apply IH.
Qed.

(** [queue_get_data] on an empty queue leaves its wait loop at the first
    wake-up whose test reads a non-zero [current_size], whatever number of
    empty wake-ups came before, and leaves the later wake-ups alone.  It
    then drains the queue it finds under the mutex: of the [k] bytes held
    there it moves the [min data_len k] oldest to the front of the buffer.
    That is at least one byte when no other thread changed the queue since
    the test, and can be none when another thread did. *)
Theorem blocking_get_returns_at_first_data
    (spurious rest : list queue_t) (window : queue_t -> queue_t)
    (q w : queue_t) (dst : list byte) (data_len : Z) :
  data_len <> 0 -> current_size q = 0 ->
  Forall (fun w => current_size w = 0) spurious ->
  current_size w <> 0 ->
  queue_get_data_shared (spurious ++ w :: rest) window (Some q) (Some dst)
    data_len = Returns (drain (window w) dst data_len rest) /\
  (queue_ok (window w) -> uint32 data_len ->
   data_len <= Z.of_nat (length dst) ->
   exists w' m,
     m = Z.min data_len (current_size (window w)) /\
     0 <= m <= data_len /\
     queue_get_data_shared (spurious ++ w :: rest) window (Some q) (Some dst)
       data_len =
       Returns (Ok (mk_dequeued (to_int m) (Some w')
                  (Some (take (Z.to_nat m) (contents (window w))
                         ++ drop (Z.to_nat m) dst))
                  rest)) /\
     queue_ok w' /\ contents w' = drop (Z.to_nat m) (contents (window w)) /\
     (window w = w -> 1 <= m) /\
     (current_size (window w) = 0 -> m = 0)).
Proof.
  intros Hlen Hq Hall Hw.
  assert (queue_get_data_shared (spurious ++ w :: rest) window (Some q)
            (Some dst) data_len = Returns (drain (window w) dst data_len rest))
    as E.
  { unfold queue_get_data_shared. destruct (Z.eqb_spec data_len 0); [done|].
    rewrite wait_loop_first_data by done. done. }
  split; [done|]. intros Hok Hu Hdst. unfold uint32 in Hu.
  pose proof (occupancy_range (window w) (proj1 Hok)) as Hcur.
  destruct (drain_spec (window w) dst data_len rest
              (Z.min data_len (current_size (window w))))
    as (w' & Hrun & Hok' & _ & _ & _ & _ & Hcont); [done | lia | done | done |].
  exists w', (Z.min data_len (current_size (window w))).
  split; [done|]. split; [lia|]. split; [by rewrite E, Hrun|].
  split; [done|]. split; [done|]. split.
  - intros Hsame. rewrite Hsame in *. lia.
  - intros Hzero. lia.
Qed.

Lemma blocking_get_returns_at_first_data_witness :
  queue_get_data_shared
    [zero_queue 2; mk_queue (Some [x2a; x00; x00]) 0 1 3 1; zero_queue 2]
    (fun _ => mk_queue (Some [x2a; x00; x00]) 1 1 3 0)
    (Some (zero_queue 2)) (Some [x00; x00]) 2 =
  Returns (drain (mk_queue (Some [x2a; x00; x00]) 1 1 3 0) [x00; x00] 2
             [zero_queue 2]).
Proof.
  apply (blocking_get_returns_at_first_data [zero_queue 2] [zero_queue 2]
           (fun _ => mk_queue (Some [x2a; x00; x00]) 1 1 3 0)
           (zero_queue 2) (mk_queue (Some [x2a; x00; x00]) 0 1 3 1)
           [x00; x00] 2).
  - discriminate.
  - reflexivity.
  - repeat constructor.
  - discriminate.
Defined.

(** [queue_get_data] returns -1 for a null queue, a null buffer or a zero
    length, and then it neither sleeps nor touches anything.  A valid call
    among well-formed states (the queue passed, the queue at every
    wake-up and the queue found under the mutex) never runs into undefined
    behaviour, leaves a well-formed queue and never returns -1; when
    [data_len <= INT_MAX] the value returned lies between 0 and
    [data_len].  It returns 0 exactly when the queue found under the mutex
    is empty, which takes another thread emptying it after the test that
    ended the wait: a thread alone with the queue never gets 0. *)
Theorem blocking_get_return_value (wakes : list queue_t)
    (window : queue_t -> queue_t) (queue_name : option queue_t)
    (dst : option (list byte)) (data_len : Z) :
  uint32 data_len ->
  (forall q, queue_name = Some q -> queue_ok q) ->
  Forall queue_ok wakes ->
  (forall q, queue_ok q -> queue_ok (window q)) ->
  (forall buf, dst = Some buf -> data_len <= Z.of_nat (length buf)) ->
  ((queue_name = None \/ dst = None \/ data_len = 0) ->
   queue_get_data_shared wakes window queue_name dst data_len =
     Returns (Ok (mk_dequeued (-1) queue_name dst wakes))) /\
  (forall q buf, queue_name = Some q -> dst = Some buf -> data_len <> 0 ->
   match queue_get_data_shared wakes window queue_name dst data_len with
   | Blocked => wait_loop wakes q = None
   | Returns (UB _) => False
   | Returns (Ok d) =>
       ret d <> -1 /\
       (data_len <= INT_MAX -> 0 <= ret d <= data_len) /\
       (exists w rest,
           wait_loop wakes q = Some (w, rest) /\ current_size w <> 0 /\
           (ret d = 0 <-> current_size (window w) = 0) /\
           (window w = w -> ret d <> 0)) /\
       exists q', queue_after d = Some q' /\ queue_ok q'
   end).
Proof.
  intros Hu Hq Hall Hwin Hdst. unfold uint32 in Hu. split.
  - intros Hbad. unfold queue_get_data_shared.
    destruct queue_name as [q|]; [|done]. destruct dst as [buf|]; [|done].
    destruct Hbad as [H|[H|H]]; [done | done |]. rewrite H. done.
  - intros q buf -> -> Hne. unfold queue_get_data_shared.
    destruct (Z.eqb_spec data_len 0); [done|].
    destruct (wait_loop wakes q) as [[q1 rest]|] eqn:E; [|done].
    destruct (wait_loop_ok wakes q q1 rest) as (Hok1 & Hne1 & _); [auto..|].
    pose proof (Hwin q1 Hok1) as Hokw.
    pose proof (occupancy_range (window q1) (proj1 Hokw)) as Hcur.
    assert (total_size (window q1) <= UINT32_MAX) as HT
      by (destruct Hokw as [_ (? & _ & _ & ?)]; done).
    destruct (drain_spec (window q1) buf data_len rest
                (Z.min data_len (current_size (window q1))))
      as (q' & -> & Hok' & _); [done | lia | auto | done |].
    cbn [ret queue_after].
    assert (0 <= Z.min data_len (current_size (window q1)) <= UINT32_MAX - 1)
      as Hm by lia.
    assert (to_int (Z.min data_len (current_size (window q1))) = 0 <->
            current_size (window q1) = 0) as Hzero.
    { unfold to_int, INT_MAX, UINT32_MAX in *.
      destruct (Z.leb_spec (Z.min data_len (current_size (window q1)))
                  2147483647); lia. }
    split; [apply to_int_not_minus_one; lia|].
    split; [intros Hsmall; rewrite to_int_small; lia|].
    split; [|by exists q'].
    exists q1, rest. split; [done|]. split; [done|]. split; [done|].
    intros Hsame. rewrite Hzero, Hsame. done.
Qed.

Lemma blocking_get_return_value_witness :
  match queue_get_data_shared []
          (fun _ => mk_queue (Some [x2a; x00; x00]) 1 1 3 0)
          (Some (mk_queue (Some [x2a; x00; x00]) 0 1 3 1))
          (Some [x00; x00]) 2 with
  | Returns (Ok d) => ret d <> -1 /\ (2 <= INT_MAX -> 0 <= ret d <= 2)
  | _ => False
  end.
Proof.
  destruct (blocking_get_return_value []
              (fun _ => mk_queue (Some [x2a; x00; x00]) 1 1 3 0)
              (Some (mk_queue (Some [x2a; x00; x00]) 0 1 3 1))
              (Some [x00; x00]) 2) as [_ H].
  - vm_compute. split; discriminate.
  - intros q [= <-]. concrete_queue_ok.
  - constructor.
  - intros q _. concrete_queue_ok.
  - intros buf [= <-]. vm_compute. discriminate.
  - specialize (H _ _ eq_refl eq_refl ltac:(discriminate)).
    destruct (queue_get_data_shared []
                (fun _ => mk_queue (Some [x2a; x00; x00]) 1 1 3 0)
                (Some (mk_queue (Some [x2a; x00; x00]) 0 1 3 1))
                (Some [x00; x00]) 2) as [[d|u]|].
    + destruct H as (H1 & H2 & _). split; [exact H1 | exact H2].
    + exact H.
    + discriminate H.
Defined.

(** ** The timed dequeue with a positive timeout *)

Lemma last_cons_default (l : list queue_t) w q :
  List.last (w :: l) q = List.last l w.
Proof.
  revert w q. induction l as [|a l IH]; intros w q; [done|].
  change (List.last (w :: a :: l) q) with (List.last (a :: l) q).
  rewrite !IH. done.
Qed.

Lemma timed_wait_loop_interrupted interrupted : forall q wakes,
  current_size q = 0 ->
  Forall (fun w => current_size w = 0) interrupted ->
  timed_wait_loop (map (pair EINTR) interrupted ++ wakes) q =
  timed_wait_loop wakes (List.last interrupted q).
Proof.
  induction interrupted as [|w interrupted IH]; intros q wakes Hq Hall; [done|].
  inversion Hall as [|? ? Hw Hall']; subst.
  cbn [map app]. rewrite timed_wait_loop_retry by done.
  rewrite IH by done. by rewrite last_cons_default.
Qed.

Lemma last_empty (interrupted : list queue_t) q :
  current_size q = 0 ->
  Forall (fun w => current_size w = 0) interrupted ->
  current_size (List.last interrupted q) = 0.
Proof.
  intros Hq Hall. revert q Hq.
  induction Hall as [|w l Hw Hall IH]; intros q Hq; [done|].
  rewrite last_cons_default. by apply IH.
Qed.

(** On an empty queue, waits interrupted by a signal are retried for as
    long as the queue stays empty, and the first wait that returns
    anything else, be it a timeout, an error or the 0 of a wake-up by a
    producer, ends the call with -1: the queue is left as that wait
    found it, the buffer is not written and the later wake-ups are not
    consumed. *)
Theorem timed_get_retries_then_gives_up
    (interrupted : list queue_t) (rest : list (Z * queue_t)) (rc : Z)
    (q q' : queue_t) (dst : list byte) (data_len timeout : Z) :
  data_len <> 0 -> 0 < timeout -> current_size q = 0 ->
  Forall (fun w => current_size w = 0) interrupted ->
  rc <> EINTR ->
  queue_get_data_with_timeout (map (pair EINTR) interrupted ++ (rc, q') :: rest)
    (Some q) (Some dst) data_len timeout =
  Returns (Ok (mk_dequeued (-1) (Some q') (Some dst) rest)).
Proof.
  intros Hlen Ht Hq Hall Hrc. unfold queue_get_data_with_timeout.
  destruct (Z.eqb_spec data_len 0); [done|].
  destruct (Z.ltb_spec 0 timeout); [|lia].
  rewrite timed_wait_loop_interrupted by done.
  rewrite timed_wait_loop_give_up; [done | by apply last_empty | done].
Qed.

Lemma timed_get_retries_then_gives_up_witness :
  queue_get_data_with_timeout
    [(EINTR, zero_queue 2); (0, mk_queue (Some [x2a; x00; x00]) 0 1 3 1);
     (ETIMEDOUT, zero_queue 2)]
    (Some (zero_queue 2)) (Some [x00]) 1 50 =
  Returns (Ok (mk_dequeued (-1) (Some (mk_queue (Some [x2a; x00; x00]) 0 1 3 1))
                 (Some [x00]) [(ETIMEDOUT, zero_queue 2)])).
Proof.
  apply (timed_get_retries_then_gives_up [zero_queue 2]
           [(ETIMEDOUT, zero_queue 2)] 0 (zero_queue 2)
           (mk_queue (Some [x2a; x00; x00]) 0 1 3 1) [x00] 1 50).
  - discriminate.
  - reflexivity.
  - reflexivity.
  - repeat constructor.
  - discriminate.
Defined.

(** The one way a timed dequeue that found the queue empty gets to its
    drain step: a wait interrupted by a signal after which the test reads a
    non-zero [current_size].  The call then drains the queue it finds
    under the mutex, which is the queue that test read when no other
    thread changed it in between and may hold fewer bytes, or none,
    otherwise: of the [k] bytes held there the [min data_len k] oldest are
    moved to the front of the buffer. *)
Theorem timed_get_drains_after_interrupted_wait
    (interrupted : list queue_t) (rest : list (Z * queue_t))
    (window : queue_t -> queue_t)
    (q w : queue_t) (dst : list byte) (data_len timeout : Z) :
  data_len <> 0 -> 0 < timeout -> current_size q = 0 ->
  Forall (fun w => current_size w = 0) interrupted ->
  current_size w <> 0 ->
  queue_get_data_with_timeout_shared
    (map (pair EINTR) interrupted ++ (EINTR, w) :: rest) window
    (Some q) (Some dst) data_len timeout =
    Returns (drain (window w) dst data_len rest) /\
  (queue_ok (window w) -> uint32 data_len ->
   data_len <= Z.of_nat (length dst) ->
   exists w' m,
     m = Z.min data_len (current_size (window w)) /\
     0 <= m <= data_len /\
     drain (window w) dst data_len rest =
       Ok (mk_dequeued (to_int m) (Some w')
             (Some (take (Z.to_nat m) (contents (window w))
                    ++ drop (Z.to_nat m) dst))
             rest) /\
     queue_ok w' /\
     (window w = w -> 1 <= m) /\
     (current_size (window w) = 0 -> m = 0)).
Proof.
  intros Hlen Ht Hq Hall Hw. split.
  - unfold queue_get_data_with_timeout_shared.
    destruct (Z.eqb_spec data_len 0); [done|].
    destruct (Z.ltb_spec 0 timeout); [|lia].
    rewrite timed_wait_loop_interrupted by done.
    rewrite timed_wait_loop_retry by (by apply last_empty).
    rewrite timed_wait_loop_nonempty by done. done.
  - intros Hok Hu Hdst. unfold uint32 in Hu.
    pose proof (occupancy_range (window w) (proj1 Hok)) as Hcur.
    destruct (drain_spec (window w) dst data_len rest
                (Z.min data_len (current_size (window w))))
      as (w' & Hrun & Hok' & _); [done | lia | done | done |].
    exists w', (Z.min data_len (current_size (window w))).
    split; [done|]. split; [lia|]. split; [done|]. split; [done|]. split.
    + intros Hsame. rewrite Hsame in *. lia.
    + intros Hzero. lia.
Qed.

Lemma timed_get_drains_after_interrupted_wait_witness :
  queue_get_data_with_timeout_shared
    [(EINTR, mk_queue (Some [x2a; x00; x00]) 0 1 3 1)]
    (fun _ => mk_queue (Some [x2a; x00; x00]) 1 1 3 0)
    (Some (zero_queue 2)) (Some [x00]) 1 50 =
  Returns (drain (mk_queue (Some [x2a; x00; x00]) 1 1 3 0) [x00] 1 []).
Proof.
  apply (timed_get_drains_after_interrupted_wait [] []
           (fun _ => mk_queue (Some [x2a; x00; x00]) 1 1 3 0)
           (zero_queue 2) (mk_queue (Some [x2a; x00; x00]) 0 1 3 1) [x00] 1 50).
  - discriminate.
  - reflexivity.
  - reflexivity.
  - constructor.
  - discriminate.
Defined.

(** Without an interrupted wait a timed dequeue that found the queue empty
    never delivers a byte: it is still asleep or it has returned -1 with
    the buffer as it was. *)
Theorem timed_get_on_empty_needs_eintr
    (wakes : list (Z * queue_t)) (q : queue_t) (dst : list byte)
    (data_len timeout : Z) :
  data_len <> 0 -> 0 < timeout -> current_size q = 0 ->
  Forall (fun w => fst w <> EINTR) wakes ->
  match queue_get_data_with_timeout wakes (Some q) (Some dst) data_len timeout with
  | Blocked => wakes = []
  | Returns (UB _) => False
  | Returns (Ok d) => ret d = -1 /\ data_after d = Some dst
  end.
Proof.
  intros Hlen Ht Hq Hall. destruct wakes as [|[rc q'] wakes].
  - unfold queue_get_data_with_timeout.
    destruct (Z.eqb_spec data_len 0); [done|].
    destruct (Z.ltb_spec 0 timeout); [|lia].
    cbn [timed_wait_loop]. unfold queue_get_current_size.
    rewrite Hq, Z.eqb_refl. done.
  - inversion Hall; subst.
    rewrite timed_get_first_wake_ends_call by done. done.
Qed.

Lemma timed_get_on_empty_needs_eintr_witness :
  match queue_get_data_with_timeout
          [(0, mk_queue (Some [x2a; x00; x00]) 0 1 3 1)]
          (Some (zero_queue 2)) (Some [x00]) 1 50 with
  | Blocked => False
  | Returns (UB _) => False
  | Returns (Ok d) => ret d = -1 /\ data_after d = Some [x00]
  end.
Proof.
  pose proof (timed_get_on_empty_needs_eintr
                [(0, mk_queue (Some [x2a; x00; x00]) 0 1 3 1)]
                (zero_queue 2) [x00] 1 50) as H.
  destruct (queue_get_data_with_timeout
              [(0, mk_queue (Some [x2a; x00; x00]) 0 1 3 1)]
              (Some (zero_queue 2)) (Some [x00]) 1 50) as [[d|u]|];
    (apply H || (exfalso; discriminate H));
    try discriminate; try reflexivity; repeat constructor; discriminate.
Defined.

(** ** The deadline *)

(** The deadline handed to [pthread_cond_timedwait] lies exactly [timeout]
    milliseconds after the clock reading and is normalised (its nanosecond
    part below one second) whenever the clock reading is; none of the
    steps wraps around or overflows, for any [uint32_t] timeout and any
    reading up to 2^62 seconds. *)
Theorem end_time_exact (start_time : timespec) (timeout : Z) :
  uint32 timeout ->
  0 <= tv_sec start_time <= 4611686018427387904 ->
  0 <= tv_nsec start_time < 1000000000 ->
  nanoseconds (end_time start_time timeout) =
    nanoseconds start_time + timeout * 1000000 /\
  0 <= tv_nsec (end_time start_time timeout) < 1000000000 /\
  wrap32 (timeout mod 1000 * 1000000) = timeout mod 1000 * 1000000 /\
  tv_nsec start_time + timeout mod 1000 * 1000000 <= LONG_MAX /\
  tv_sec start_time <= tv_sec (end_time start_time timeout) <= LONG_MAX.
Proof.
  intros Hu Hsec Hnsec. unfold uint32, UINT32_MAX in Hu.
  pose proof (Z.mod_pos_bound timeout 1000 ltac:(lia)) as Hr.
  pose proof (Z.div_mod timeout 1000 ltac:(lia)) as Hdm.
  assert (0 <= timeout / 1000 <= 4294967) as Hd by lia.
  assert (wrap32 (timeout mod 1000 * 1000000) = timeout mod 1000 * 1000000) as Hw
    by (apply wrap32_small; unfold UINT32_MAX; lia).
  unfold end_time, nanoseconds, LONG_MAX. rewrite Hw.
  destruct (Z.leb_spec 1000000000 (tv_nsec start_time + timeout mod 1000 * 1000000));
    cbn [tv_sec tv_nsec]; repeat split; lia.
Qed.

Lemma end_time_exact_witness :
  nanoseconds (end_time (mk_timespec 10 999000000) 1500) =
  nanoseconds (mk_timespec 10 999000000) + 1500 * 1000000.
Proof.
  apply (end_time_exact (mk_timespec 10 999000000) 1500).
  - vm_compute. split; discriminate.
  - vm_compute. split; discriminate.
  - vm_compute. split; [discriminate | reflexivity].
Defined.

(** ** Any order of puts and gets *)

Lemma zero_timeout_is_drain wakes q dst data_len :
  data_len <> 0 ->
  queue_get_data_with_timeout wakes (Some q) (Some dst) data_len 0 =
  Returns (drain q dst data_len wakes).
Proof.
  intros Hlen. unfold queue_get_data_with_timeout.
  destruct (Z.eqb_spec data_len 0); done.
Qed.

Lemma run_ops_refines ops : forall q,
  queue_ok q -> Forall op_valid ops ->
  exists q',
    run_ops (Some q) ops =
      Returns (Ok (fst (fifo_ops (capacity q) (contents q) ops), Some q')) /\
    queue_ok q' /\ total_size q' = total_size q /\
    contents q' = snd (fifo_ops (capacity q) (contents q) ops).
Proof.
  induction ops as [|o ops IH]; intros q Hok Hval.
  - exists q. done.
  - inversion Hval as [|? ? Ho Hval']; subst.
    pose proof (contents_length q Hok) as Hlen.
    pose proof (occupancy_range q (proj1 Hok)) as Hcur.
    destruct o as [c|n]; cbn [op_valid] in Ho.
    + destruct Ho as [Hc Hmax].
      assert (1 <= Z.of_nat (length c)) by (destruct c; [done | simpl; lia]).
      destruct (queue_put_data_spec q c (Z.of_nat (length c))
                  (Z.min (Z.of_nat (length c)) (capacity q - current_size q)))
        as (q1 & Hput & Hok1 & _ & HT1 & _ & Hcont1); [done | lia | lia | done |].
      destruct (IH q1 Hok1 Hval') as (q' & Hrun & Hok' & HT' & Hcont').
      exists q'. cbn [run_ops fifo_ops fst snd]. rewrite Hput, Hrun, Hlen.
      unfold capacity in *. rewrite HT1, Hcont1 in *.
      split; [done|]. split; [done|]. split; [congruence | done].
    + destruct (drain_spec q (zeros n) n (@nil (Z * queue_t))
                  (Z.min n (current_size q)))
        as (q1 & Hrun1 & Hok1 & _ & _ & HT1 & _ & Hcont1);
        [done | lia | rewrite zeros_length; lia | done |].
      destruct (IH q1 Hok1 Hval') as (q' & Hrun & Hok' & HT' & Hcont').
      exists q'. cbn [run_ops fifo_ops fst snd].
      rewrite zero_timeout_is_drain by lia. rewrite Hrun1.
      cbn [queue_after data_after ret default]. rewrite Hrun, Hlen.
      unfold capacity in *. rewrite HT1, Hcont1 in *.
      split; [done|]. split; [done|]. split; [congruence | done].
Qed.

(** Below [INT_MAX] the list with the code's [int] conversion is the
    bounded list. *)
Lemma fifo_ops_small ops : forall cap held,
  Forall op_small ops -> fifo_ops cap held ops = bounded_fifo cap held ops.
Proof.
  induction ops as [|o ops IH]; intros cap held Hsmall; [done|].
  inversion Hsmall as [|? ? Ho Hsmall']; subst.
  destruct o as [c|n]; cbn [op_small] in Ho; cbn [fifo_ops bounded_fifo].
  - rewrite to_int_small by lia. rewrite IH by done. done.
  - rewrite to_int_small by lia. rewrite IH by done. done.
Qed.

Lemma op_small_valid o : op_small o -> op_valid o.
Proof.
  destruct o as [c|n]; cbn [op_small op_valid]; unfold UINT32_MAX, INT_MAX;
    [intros [Hc Hlen]; split; [done | lia] | lia].
Qed.

(** A queue that [queue_init] built for capacity [N] answers every
    sequence of valid puts and non-waiting gets issued by one thread, with
    no chunk and no request longer than [INT_MAX], exactly as a first-in
    first-out list bounded by [N] that starts empty: every put returns the
    number of bytes the list took, every get the number of bytes the list
    gave, the buffers hold the same bytes and the same bytes are left
    inside; no call is left blocked and none runs into undefined
    behaviour. *)
Theorem initialised_queue_is_bounded_fifo (malloc : Z -> option (list byte))
    (q0 : queue_t) (N : Z) (blk : list byte) (ops : list op) :
  malloc_ok malloc -> 1 <= N <= UINT32_MAX - 1 ->
  malloc (N + 1) = Some blk -> Forall op_small ops ->
  exists q q',
    queue_init malloc (Some q0) N = (true, Some q) /\
    run_ops (Some q) ops = Returns (Ok (fst (bounded_fifo N [] ops), Some q')) /\
    contents q' = snd (bounded_fifo N [] ops) /\ queue_ok q'.
Proof.
  intros Hm HN Hblk Hsmall.
  assert (queue_ok (mk_queue (Some blk) 0 0 (N + 1) 0)) as Hok
    by (apply fresh_queue_ok; [done|]; apply Hm; [lia | done]).
  destruct (run_ops_refines ops _ Hok) as (q' & Hrun & Hok' & _ & Hcont).
  { eapply Forall_impl; [exact Hsmall | exact op_small_valid]. }
  exists (mk_queue (Some blk) 0 0 (N + 1) 0), q'.
  split; [by apply queue_init_spec|].
  replace (capacity (mk_queue (Some blk) 0 0 (N + 1) 0)) with N in *
    by (unfold capacity; simpl; lia).
  rewrite (contents_empty (mk_queue (Some blk) 0 0 (N + 1) 0)) in * by done.
  rewrite fifo_ops_small in * by done.
  done.
Qed.

Lemma initialised_queue_is_bounded_fifo_witness :
  exists q q',
    queue_init zero_malloc (Some blank) 2 = (true, Some q) /\
    run_ops (Some q) [Put [x01; x02; x03]; Get 1; Put [x04]; Get 5] =
      Returns (Ok ([Put_returned 2; Get_returned 1 [x01];
                    Put_returned 1; Get_returned 2 [x02; x04; x00; x00; x00]],
                   Some q')).
Proof.
  destruct (initialised_queue_is_bounded_fifo zero_malloc blank 2
              [x00; x00; x00] [Put [x01; x02; x03]; Get 1; Put [x04]; Get 5])
    as (q & q' & Hinit & Hrun & _).
  - exact zero_malloc_ok.
  - vm_compute. split; discriminate.
  - reflexivity.
  - repeat constructor; (discriminate || (vm_compute; discriminate)).
  - exists q, q'. split; [exact Hinit | exact Hrun].
Defined.

Lemma fifo_ops_conserves ops : forall cap held,
  Forall op_small ops ->
  held ++ accepted ops (fst (fifo_ops cap held ops)) =
  delivered (fst (fifo_ops cap held ops)) ++ snd (fifo_ops cap held ops).
Proof.
  induction ops as [|o ops IH]; intros cap held Hsmall.
  - cbn. by rewrite app_nil_r.
  - inversion Hsmall as [|? ? Ho Hsmall']; subst.
    destruct o as [c|n]; cbn [op_small] in Ho; cbn [fifo_ops fst snd accepted delivered].
    + set (m := Z.min (Z.of_nat (length c)) (cap - Z.of_nat (length held))).
      rewrite to_int_small by lia.
      rewrite app_assoc. apply IH. done.
    + set (m := Z.min n (Z.of_nat (length held))).
      rewrite to_int_small by lia.
      rewrite take_app_le by (rewrite length_take; lia).
      rewrite take_take, Nat.min_id.
      rewrite <- app_assoc, <- IH by done.
      rewrite app_assoc, take_drop. done.
Qed.

(** Whatever the order of valid puts and non-waiting gets issued by one
    thread (counts up to [INT_MAX]), no byte is lost, duplicated or
    reordered: the bytes held at the start followed by the bytes the puts
    reported as written are the bytes the gets reported as read followed
    by the bytes held at the end. *)
Theorem bytes_are_conserved (q : queue_t) (ops : list op) :
  queue_ok q -> Forall op_small ops ->
  exists evs q',
    run_ops (Some q) ops = Returns (Ok (evs, Some q')) /\
    contents q ++ accepted ops evs = delivered evs ++ contents q'.
Proof.
  intros Hok Hsmall.
  destruct (run_ops_refines ops q Hok) as (q' & Hrun & _ & _ & Hcont).
  { eapply Forall_impl; [exact Hsmall|].
    intros [c|n]; cbn [op_small op_valid]; unfold UINT32_MAX, INT_MAX;
      [intros [Hc Hlen]; split; [done | lia] | lia]. }
  eexists _, q'. split; [exact Hrun|].
  rewrite Hcont. by apply fifo_ops_conserves.
Qed.

Lemma bytes_are_conserved_witness :
  exists evs q',
    run_ops (Some (mk_queue (Some [x00; x00; x09]) 2 0 3 1))
      [Put [x01; x02]; Get 2; Put [x03]] = Returns (Ok (evs, Some q')) /\
    contents (mk_queue (Some [x00; x00; x09]) 2 0 3 1)
      ++ accepted [Put [x01; x02]; Get 2; Put [x03]] evs
    = delivered evs ++ contents q'.
Proof.
  apply (bytes_are_conserved (mk_queue (Some [x00; x00; x09]) 2 0 3 1)
           [Put [x01; x02]; Get 2; Put [x03]]).
  - concrete_queue_ok.
  - repeat constructor; (discriminate || (vm_compute; discriminate)).
Defined.

(** ** Clearing a queue in use *)

(** [queue_clear] on a well-formed queue, whatever it holds, leaves a
    well-formed empty queue of the same capacity: the bytes that were held
    are gone for the interface, and a chunk as long as the capacity is
    again accepted in full. *)
Theorem clear_makes_whole_capacity_available (q : queue_t) (src : list byte) :
  queue_ok q -> 1 <= Z.of_nat (length src) <= capacity q ->
  exists q0 q1,
    queue_clear (Some q) = (true, Some q0) /\
    queue_ok q0 /\ contents q0 = [] /\ capacity q0 = capacity q /\
    queue_is_empty q0 = true /\
    queue_put_data (Some q0) (Some src) (Z.of_nat (length src)) =
      Ok (to_int (Z.of_nat (length src)), Some q1) /\
    contents q1 = src.
Proof.
  intros Hok Hsrc.
  assert (0 < total_size q) as HT by (destruct Hok as [(? & _) _]; lia).
  assert (total_size q <= UINT32_MAX) as Hmax
    by (destruct Hok as [_ (? & _ & _ & ?)]; done).
  destruct (queue_clear_ok q (proj2 Hok) HT) as (q0 & Hclear & Hok0 & Hc0).
  assert (capacity q0 = capacity q) as Hcap
    by (injection Hclear as <-; reflexivity).
  destruct (queue_put_data_spec q0 src (Z.of_nat (length src))
              (Z.of_nat (length src)))
    as (q1 & Hput & _ & _ & _ & _ & Hcont1);
    [done | unfold capacity in *; lia | lia | lia |].
  exists q0, q1. split; [done|]. split; [done|].
  split; [by apply contents_empty|]. split; [done|].
  split; [unfold queue_is_empty; by rewrite Hc0|]. split; [done|].
  rewrite Hcont1, (contents_empty q0 Hc0), Nat2Z.id, firstn_all. done.
Qed.

Lemma clear_makes_whole_capacity_available_witness :
  exists q0 q1,
    queue_clear (Some (mk_queue (Some [x07; x08; x00]) 0 2 3 2))
      = (true, Some q0) /\
    queue_put_data (Some q0) (Some [x01; x02]) 2 = Ok (2, Some q1) /\
    contents q1 = [x01; x02].
Proof.
  destruct (clear_makes_whole_capacity_available
              (mk_queue (Some [x07; x08; x00]) 0 2 3 2) [x01; x02])
    as (q0 & q1 & H1 & _ & _ & _ & _ & H2 & H3).
  - concrete_queue_ok.
  - vm_compute. split; discriminate.
  - exists q0, q1. split; [exact H1|]. split; [exact H2 | exact H3].
Defined.

(** ** What the transfers leave alone *)

(** A valid [queue_put_data] on a well-formed queue never faults and
    leaves a well-formed queue; it does not move [head] nor change
    [total_size], keeps the bytes held in front of what it appends, and
    advances [tail] by the number of bytes written, modulo [total_size]. *)
Theorem put_keeps_queue_well_formed (q : queue_t) (src : list byte)
    (data_len : Z) :
  queue_ok q -> 1 <= data_len <= UINT32_MAX ->
  data_len <= Z.of_nat (length src) ->
  exists r q',
    queue_put_data (Some q) (Some src) data_len = Ok (r, Some q') /\
    queue_ok q' /\ head q' = head q /\ total_size q' = total_size q /\
    take (length (contents q)) (contents q') = contents q /\
    tail q' =
      (tail q + (current_size q' - current_size q)) mod total_size q.
Proof.
  intros Hok Hlen Hsrc.
  destruct (queue_put_data_spec q src data_len
              (Z.min data_len (capacity q - current_size q)))
    as (q' & Hput & Hok' & Hh & HT & Hc & Hcont); [done..|].
  eexists _, q'. split; [exact Hput|]. split; [done|]. split; [done|].
  split; [done|]. split; [by rewrite Hcont, take_app_length|].
  pose proof (occupancy_tail q (proj1 Hok)) as Ht.
  pose proof (occupancy_tail q' (proj1 Hok')) as Ht'.
  rewrite Ht at 1. rewrite Ht', HT, Hh.
  rewrite Zplus_mod_idemp_l. f_equal. lia.
Qed.

Lemma put_keeps_queue_well_formed_witness :
  exists r q',
    queue_put_data (Some (mk_queue (Some [x00; x00; x09]) 2 0 3 1))
      (Some [x01; x02]) 2 = Ok (r, Some q') /\
    queue_ok q' /\ head q' = 2.
Proof.
  destruct (put_keeps_queue_well_formed
              (mk_queue (Some [x00; x00; x09]) 2 0 3 1) [x01; x02] 2)
    as (r & q' & H1 & H2 & H3 & _).
  - concrete_queue_ok.
  - vm_compute. split; discriminate.
  - vm_compute. discriminate.
  - exists r, q'. split; [exact H1|]. split; [exact H2 | exact H3].
Defined.

(** The drain step on a well-formed queue never writes to the queue's
    block (the bytes handed out stay where they were), does not move
    [tail] nor change [total_size], advances [head] by the number of bytes
    read, modulo [total_size], and leaves the caller's buffer beyond the
    bytes read as it was. *)
Theorem drain_leaves_storage_untouched {W : Type} (q : queue_t)
    (dst : list byte) (data_len : Z) (wakes : list W) :
  queue_ok q -> 1 <= data_len <= UINT32_MAX ->
  data_len <= Z.of_nat (length dst) ->
  exists d q' buf,
    drain q dst data_len wakes = Ok d /\
    queue_after d = Some q' /\ data_after d = Some buf /\
    queue_ok q' /\ data q' = data q /\ tail q' = tail q /\
    total_size q' = total_size q /\
    head q' = (head q + (current_size q - current_size q')) mod total_size q /\
    length buf = length dst /\
    drop (Z.to_nat (current_size q - current_size q')) buf =
    drop (Z.to_nat (current_size q - current_size q')) dst.
Proof.
  intros Hok Hlen Hdst.
  pose proof (occupancy_range q (proj1 Hok)) as Hcur.
  pose proof (contents_length q Hok) as Hcl.
  set (m := Z.min data_len (current_size q)).
  destruct (drain_spec q dst data_len wakes m)
    as (q' & Hrun & Hok' & Ht & Hd & HT & Hc & Hcont); [done..|].
  eexists _, q', _. split; [exact Hrun|]. cbn [queue_after data_after].
  split; [done|]. split; [done|]. split; [done|]. split; [done|].
  split; [done|]. split; [done|].
  replace (current_size q - current_size q') with m by lia.
  assert (length (take (Z.to_nat m) (contents q)) = Z.to_nat m) as Htk
    by (rewrite length_take; lia).
  split; [|split].
  - pose proof (occupancy_tail q (proj1 Hok)) as E.
    pose proof (occupancy_tail q' (proj1 Hok')) as E'.
    rewrite Ht, HT in E'. rewrite E in E'.
    destruct Hok as [(Hh & _) _]. destruct Hok' as [(Hh' & _) _].
    rewrite HT in Hh'.
    symmetry. rewrite <- (Z.mod_small (head q') (total_size q)) at 1 by done.
    replace (head q + m) with (head q + current_size q + (m - current_size q))
      by lia.
    rewrite <- Zplus_mod_idemp_l, E', Zplus_mod_idemp_l.
    f_equal. lia.
  - rewrite length_app, Htk, length_drop. lia.
  - rewrite drop_app_length'; done.
Qed.

Lemma drain_leaves_storage_untouched_witness :
  exists d q' buf,
    drain (mk_queue (Some [x08; x00; x07]) 2 1 3 2) [x00; x00; x55] 2
      (@nil queue_t) = Ok d /\
    queue_after d = Some q' /\ data_after d = Some buf /\
    data q' = Some [x08; x00; x07] /\ drop 2 buf = [x55].
Proof.
  destruct (drain_leaves_storage_untouched
              (mk_queue (Some [x08; x00; x07]) 2 1 3 2) [x00; x00; x55] 2
              (@nil queue_t))
    as (d & q' & buf & H1 & H2 & H3 & _ & H4 & _ & _ & _ & _ & H5).
  - concrete_queue_ok.
  - vm_compute. split; discriminate.
  - vm_compute. discriminate.
  - exists d, q', buf. split; [exact H1|]. split; [exact H2|].
    split; [exact H3|]. split; [exact H4|].
    injection H1 as <-. injection H2 as <-. exact H5.
Defined.

(** ** The queries against the transfers *)

Lemma to_int_zero z : 0 <= z <= UINT32_MAX -> (to_int z = 0 <-> z = 0).
Proof.
  unfold to_int, UINT32_MAX, INT_MAX. intros H.
  destruct (Z.leb_spec z 2147483647); lia.
Qed.

(** On a well-formed queue the two queries tell what a non-waiting get
    will do: it returns 0 exactly when [queue_is_empty] says so, and a
    request for at least [queue_get_current_size] bytes hands over
    everything the queue holds, returns that size (through [int]) and
    leaves the queue empty. *)
Theorem queries_predict_the_get (wakes : list (Z * queue_t)) (q : queue_t)
    (dst : list byte) (data_len : Z) :
  queue_ok q -> 1 <= data_len <= UINT32_MAX ->
  data_len <= Z.of_nat (length dst) ->
  exists d q',
    queue_get_data_with_timeout wakes (Some q) (Some dst) data_len 0 =
      Returns (Ok d) /\
    queue_after d = Some q' /\
    (ret d = 0 <-> queue_is_empty q = true) /\
    (queue_get_current_size q <= data_len ->
     ret d = to_int (queue_get_current_size q) /\
     data_after d =
       Some (contents q ++ drop (Z.to_nat (queue_get_current_size q)) dst) /\
     queue_is_empty q' = true).
Proof.
  intros Hok Hlen Hdst. unfold queue_get_current_size.
  pose proof (occupancy_range q (proj1 Hok)) as Hcur.
  pose proof (contents_length q Hok) as Hcl.
  assert (total_size q <= UINT32_MAX) as HT
    by (destruct Hok as [_ (? & _ & _ & ?)]; done).
  destruct (drain_spec q dst data_len wakes (Z.min data_len (current_size q)))
    as (q' & Hrun & _ & _ & _ & _ & Hc & _); [done..|].
  eexists _, q'. rewrite zero_timeout_is_drain by lia.
  split; [by rewrite Hrun|]. cbn [queue_after ret data_after].
  split; [done|]. split.
  - rewrite to_int_zero by lia. unfold queue_is_empty.
    destruct (Z.eqb_spec (current_size q) 0); split; intros; (lia || done).
  - intros Hall. rewrite Z.min_r in * by done.
    split; [done|]. split.
    + rewrite take_ge by lia. done.
    + unfold queue_is_empty. replace (current_size q') with 0 by lia. done.
Qed.

Lemma queries_predict_the_get_witness :
  exists d q',
    queue_get_data_with_timeout []
      (Some (mk_queue (Some [x08; x00; x07]) 2 1 3 2))
      (Some [x00; x00; x55]) 3 0 = Returns (Ok d) /\
    queue_after d = Some q' /\ ret d = 2 /\
    data_after d = Some [x07; x08; x55] /\ queue_is_empty q' = true.
Proof.
  destruct (queries_predict_the_get []
              (mk_queue (Some [x08; x00; x07]) 2 1 3 2) [x00; x00; x55] 3)
    as (d & q' & H1 & H2 & _ & H3).
  - concrete_queue_ok.
  - vm_compute. split; discriminate.
  - vm_compute. discriminate.
  - destruct H3 as (H4 & H5 & H6); [vm_compute; discriminate|].
    exists d, q'. split; [exact H1|]. split; [exact H2|].
    split; [exact H4|]. split; [exact H5 | exact H6].
Defined.

(** On a well-formed queue a valid put returns 0 exactly when the queue is
    full, that is when [queue_get_current_size] has reached the capacity;
    the queue is then left as it was. *)
Theorem put_returns_zero_iff_full (q : queue_t) (src : list byte)
    (data_len : Z) :
  queue_ok q -> 1 <= data_len <= UINT32_MAX ->
  data_len <= Z.of_nat (length src) ->
  exists r q',
    queue_put_data (Some q) (Some src) data_len = Ok (r, Some q') /\
    (r = 0 <-> queue_get_current_size q = capacity q) /\
    (r = 0 -> q' = q).
Proof.
  intros Hok Hlen Hsrc. unfold queue_get_current_size.
  pose proof (occupancy_range q (proj1 Hok)) as Hcur.
  assert (total_size q <= UINT32_MAX) as HT
    by (destruct Hok as [_ (? & _ & _ & ?)]; done).
  destruct (Z.eq_dec (current_size q) (capacity q)) as [Hfull|Hroom].
  - exists 0, q. rewrite put_full by (done || lia). done.
  - destruct (queue_put_data_spec q src data_len
                (Z.min data_len (capacity q - current_size q)))
      as (q' & Hput & _); [done..|].
    eexists _, q'. split; [exact Hput|].
    unfold capacity in *. rewrite to_int_zero by lia.
    split; [split; intros; lia | intros; lia].
Qed.

Lemma put_returns_zero_iff_full_witness :
  exists r q',
    queue_put_data (Some (mk_queue (Some [x08; x00; x07]) 2 1 3 2))
      (Some [x01]) 1 = Ok (r, Some q') /\ r = 0.
Proof.
  destruct (put_returns_zero_iff_full
              (mk_queue (Some [x08; x00; x07]) 2 1 3 2) [x01] 1)
    as (r & q' & H1 & H2 & _).
  - concrete_queue_ok.
  - vm_compute. split; discriminate.
  - vm_compute. discriminate.
  - exists r, q'. split; [exact H1|]. apply H2. reflexivity.
Defined.

(** ** Buffers shorter than the length passed *)

Lemma put_loop_overrun n : forall q src put_num,
  queue_ok q -> 0 <= put_num <= Z.of_nat (length src) ->
  Z.of_nat (length src) - put_num < Z.of_nat n ->
  Z.of_nat (length src) - put_num < capacity q - current_size q ->
  put_num + Z.of_nat n <= UINT32_MAX ->
  put_loop n q src put_num = UB OutOfBounds.
Proof.
  unfold capacity.
  induction n as [|n IH]; intros q src put_num Hok Hpos Hn Hroom Hmax; [lia|].
  pose proof (occupancy_range q (proj1 Hok)) as Hcur.
  destruct (proj2 Hok) as (blk & Hblk & Hlen & HT).
  destruct (Z.eq_dec put_num (Z.of_nat (length src))) as [Hend|Hmore].
  - assert ((tail q + 1) mod total_size q <> head q) as Hne
      by (rewrite (occupancy_full q (proj1 Hok)); lia).
    destruct Hok as [(Hh & Ht & _) _].
    cbn [put_loop]. unfold umod.
    destruct (Z.eqb_spec (total_size q) 0); [lia|].
    rewrite wrap32_small by lia. cbn [bind].
    destruct (Z.eqb_spec ((tail q + 1) mod total_size q) (head q)); [done|].
    unfold load. rewrite lookup_ge_None_2 by lia. done.
  - destruct (lookup_lt_is_Some_2 src (Z.to_nat put_num)) as [b Hb]; [lia|].
    destruct (put_byte_ok q blk b) as [Hok1 _]; [done | done | lia |].
    rewrite (put_loop_step n q src put_num blk b) by (done || lia).
    rewrite wrap32_small by lia.
    apply IH; [done | lia | lia | cbn [put_byte total_size current_size]; lia | lia].
Qed.

(** When the queue has room for more bytes than the source buffer holds
    and [data_len] exceeds the buffer, [queue_put_data] reads past the end
    of the buffer: the length passed is not checked against anything. *)
Theorem put_reads_past_short_source (q : queue_t) (src : list byte)
    (data_len : Z) :
  queue_ok q -> data_len <= UINT32_MAX ->
  Z.of_nat (length src) < data_len ->
  Z.of_nat (length src) < capacity q - queue_get_current_size q ->
  queue_put_data (Some q) (Some src) data_len = UB OutOfBounds.
Proof.
  intros Hok Hmax Hshort Hroom. unfold queue_get_current_size in Hroom.
  unfold queue_put_data.
  destruct (Z.eqb_spec data_len 0); [lia|].
  rewrite put_loop_overrun; [done | done | lia | lia | lia | lia].
Qed.

Lemma put_reads_past_short_source_witness :
  queue_put_data (Some (zero_queue 3)) (Some [x01]) 2 = UB OutOfBounds.
Proof.
  apply put_reads_past_short_source.
  - apply zero_queue_ok. vm_compute. split; discriminate.
  - vm_compute. discriminate.
  - reflexivity.
  - reflexivity.
Defined.

Lemma get_loop_overrun n : forall q dst get_num,
  queue_ok q -> 0 <= get_num <= Z.of_nat (length dst) ->
  Z.of_nat (length dst) - get_num < Z.of_nat n ->
  Z.of_nat (length dst) - get_num < current_size q ->
  get_num + Z.of_nat n <= UINT32_MAX ->
  get_loop n q dst get_num = UB OutOfBounds.
Proof.
  induction n as [|n IH]; intros q dst get_num Hok Hpos Hn Hheld Hmax; [lia|].
  destruct (proj2 Hok) as (blk & Hblk & Hlen & HT).
  destruct (get_byte_ok q blk) as (b & Hb & Hok1 & _); [done | done | lia |].
  destruct (Z.eq_dec get_num (Z.of_nat (length dst))) as [Hend|Hmore].
  - assert (head q <> tail q) as Hne
      by (rewrite <- (occupancy_zero q (proj1 Hok)); lia).
    cbn [get_loop]. destruct (Z.eqb_spec (head q) (tail q)); [done|].
    rewrite Hblk. cbn [deref bind]. unfold load. rewrite Hb. cbn [bind].
    unfold store. destruct (Z.ltb_spec get_num (Z.of_nat (length dst))); [lia|].
    done.
  - rewrite (get_loop_step n q dst get_num blk b) by (done || lia).
    rewrite wrap32_small by lia.
    apply IH; rewrite ?length_insert; cbn [get_byte current_size];
      [done | lia..].
Qed.

(** When the queue holds more bytes than the caller's buffer has room for
    and [data_len] exceeds the buffer, the drain step writes past the end
    of the buffer. *)
Theorem drain_writes_past_short_buffer {W : Type} (q : queue_t)
    (dst : list byte) (data_len : Z) (wakes : list W) :
  queue_ok q -> data_len <= UINT32_MAX ->
  Z.of_nat (length dst) < data_len ->
  Z.of_nat (length dst) < queue_get_current_size q ->
  drain q dst data_len wakes = UB OutOfBounds.
Proof.
  intros Hok Hmax Hshort Hheld. unfold queue_get_current_size in Hheld.
  unfold drain.
  rewrite get_loop_overrun; [done | done | lia | lia | lia | lia].
Qed.

Lemma drain_writes_past_short_buffer_witness :
  drain (mk_queue (Some [x08; x00; x07]) 2 1 3 2) [x00] 2 (@nil queue_t)
  = UB OutOfBounds.
Proof.
  apply drain_writes_past_short_buffer.
  - concrete_queue_ok.
  - vm_compute. discriminate.
  - reflexivity.
  - reflexivity.
Defined.

(** ** Teardown *)

(** [queue_destroy] returns true exactly when the handle is not null and
    both [pthread_mutex_destroy] and [pthread_cond_destroy] return 0, and
    only then are the four counters reset to 0.  For every non-null handle
    the block has been released by then, also when the call fails: a
    failed teardown leaves the counters as they were, describing bytes
    that are no longer there, and when the mutex cannot be destroyed the
    condition variable is not touched. *)
Theorem queue_destroy_outcome (mutex_rc cond_rc : Z) (q : queue_t) :
  fst (queue_destroy mutex_rc cond_rc None) = false /\
  exists t,
    snd (queue_destroy mutex_rc cond_rc (Some q)) = Some t /\
    released t = true /\
    (fst (queue_destroy mutex_rc cond_rc (Some q)) = true <->
     mutex_rc = 0 /\ cond_rc = 0) /\
    (fst (queue_destroy mutex_rc cond_rc (Some q)) = true ->
     head_left t = 0 /\ tail_left t = 0 /\ total_size_left t = 0 /\
     current_size_left t = 0) /\
    (fst (queue_destroy mutex_rc cond_rc (Some q)) = false ->
     head_left t = head q /\ tail_left t = tail q /\
     total_size_left t = total_size q /\
     current_size_left t = queue_get_current_size q) /\
    (cond_destroy_called t = true <-> mutex_rc = 0).
Proof.
  split; [done|]. unfold queue_destroy.
  destruct (Z.eqb_spec 0 mutex_rc) as [<-|Hm]; cbn [negb].
  - destruct (Z.eqb_spec 0 cond_rc) as [<-|Hc]; cbn [negb];
      eexists; (split; [reflexivity|]); cbn; intuition congruence.
  - eexists. split; [reflexivity|]. cbn. intuition congruence.
Qed.

(** ** A timed dequeue among well-formed states *)

Lemma queue_get_data_with_timeout_ok_witness :
  match queue_get_data_with_timeout
          [(EINTR, mk_queue (Some [x2a; x00; x00]) 0 1 3 1)]
          (Some (zero_queue 2)) (Some [x00; x00]) 2 50 with
  | Returns (Ok d) => exists q', queue_after d = Some q' /\ queue_ok q'
  | Returns (UB _) => False
  | Blocked =>
      timed_wait_loop [(EINTR, mk_queue (Some [x2a; x00; x00]) 0 1 3 1)]
        (zero_queue 2) = Sleeping
  end.
Proof.
  apply (queue_get_data_with_timeout_ok
           [(EINTR, mk_queue (Some [x2a; x00; x00]) 0 1 3 1)]
           (zero_queue 2) [x00; x00] 2 50).
  - apply zero_queue_ok. vm_compute. split; discriminate.
  - constructor; [cbn [snd]; concrete_queue_ok | constructor].
  - vm_compute. split; discriminate.
  - vm_compute. discriminate.
Defined.

(** ** Counts above [INT_MAX] returned through [int] *)

(** A chunk of [M] bytes put into the fresh queue of capacity [N >= M] is
    stored whole; what comes back is [M] converted to [int]. *)
Lemma put_zeros N M :
  1 <= N <= UINT32_MAX - 1 -> 1 <= M <= N ->
  exists q1,
    queue_put_data (Some (zero_queue N)) (Some (zeros M)) M =
      Ok (to_int M, Some q1) /\
    queue_get_current_size q1 = M /\ contents q1 = zeros M.
Proof.
  intros HN HM.
  destruct (queue_put_data_spec (zero_queue N) (zeros M) M M)
    as (q1 & Hput & _ & _ & _ & Hc & Hcont).
  - by apply zero_queue_ok.
  - lia.
  - rewrite zeros_length; lia.
  - unfold capacity, zero_queue. cbn [total_size current_size]. lia.
  - exists q1. split; [done|]. split; [exact Hc|].
    rewrite Hcont, (contents_empty (zero_queue N)) by done.
    cbn [app]. apply take_ge. unfold zeros. rewrite length_replicate. lia.
Qed.

(** C2.  The claim fails on the code.  [queue_init] with
    [queue_size = 2^31] succeeds and a single put of [2^31] bytes into the
    empty queue stores all of them, but the value returned is
    [-2147483648] and not [2^31]: the [uint32_t] count leaves the function
    through its [int] return type. *)
Theorem put_of_capacity_2G_returns_negative :
  queue_init zero_malloc (Some blank) 2147483648
    = (true, Some (zero_queue 2147483648)) /\
  exists q1,
    queue_put_data (Some (zero_queue 2147483648)) (Some (zeros 2147483648))
      2147483648 = Ok (-2147483648, Some q1) /\
    queue_get_current_size q1 = 2147483648 /\
    contents q1 = zeros 2147483648.
Proof.
  split; [apply zero_queue_init; unfold UINT32_MAX; lia|].
  change (-2147483648) with (to_int 2147483648).
  apply put_zeros; unfold UINT32_MAX; lia.
Qed.

(** C4.  The claim fails on the code.  A valid put of [2^32 - 2] bytes
    into the empty queue of that capacity writes all of them and returns
    -2, a value that is not between 0 and [data_len]. *)
Theorem put_of_4294967294_bytes_returns_minus_two :
  queue_init zero_malloc (Some blank) 4294967294
    = (true, Some (zero_queue 4294967294)) /\
  exists q1,
    queue_put_data (Some (zero_queue 4294967294)) (Some (zeros 4294967294))
      4294967294 = Ok (-2, Some q1) /\
    queue_get_current_size q1 = 4294967294 /\
    contents q1 = zeros 4294967294.
Proof.
  split; [apply zero_queue_init; unfold UINT32_MAX; lia|].
  change (-2) with (to_int 4294967294).
  apply put_zeros; unfold UINT32_MAX; lia.
Qed.

(** C9.  The claim fails on the code.  On the well-formed empty queue of
    capacity [C = 3000000000] a valid put with [data_len = 2500000000]
    writes [min data_len (C - 0) = 2500000000] bytes, as the claim says,
    and returns [-1794967296], which is not that count. *)
Theorem put_of_2500000000_bytes_returns_negative :
  queue_ok (zero_queue 3000000000) /\
  Z.min 2500000000
    (capacity (zero_queue 3000000000)
     - queue_get_current_size (zero_queue 3000000000)) = 2500000000 /\
  exists q1,
    queue_put_data (Some (zero_queue 3000000000)) (Some (zeros 2500000000))
      2500000000 = Ok (-1794967296, Some q1) /\
    queue_get_current_size q1 = 2500000000 /\
    contents q1 = zeros 2500000000.
Proof.
  split; [apply zero_queue_ok; unfold UINT32_MAX; lia|].
  split; [reflexivity|].
  change (-1794967296) with (to_int 2500000000).
  apply put_zeros; unfold UINT32_MAX; lia.
Qed.
